(** * Sorting trainer: step-queue generators and game engine

    A shallow embedding of [src/modules/algorithms.js] and
    [src/modules/game-engine.js], and the properties of the step plans and
    of the game session that the specification states.

    Modelling conventions.
    - The numbers of a sequence are integers ([Z]); these are the values
      the engine generates.  JavaScript's [NaN] and fractional numbers are
      outside the model.
    - A JavaScript array of numbers is a [list Z]; [a !! i] is the read
      [a[i]], with [None] standing for [undefined].  A comparison with
      [undefined] is false in JavaScript, and is false here.
    - Text is [string] (the bytes of the UTF-8 source text); a number
      interpolated in a template literal is printed in decimal by [pretty].
      This is the text JavaScript prints for the safe integers (below
      2^53 in absolute value, [safe_integer]); a property that states the
      text of a message states it for such values.
    - [Date.now()] and [Math.random()] are inputs: every operation that
      reads the clock takes the time as an argument, and every operation
      that draws random numbers takes the list of draws it may consume. *)

From Stdlib Require Import ZArith Lia Sorted.
From stdpp Require Import base list strings pretty gmap sorting.

(** ** Loops *)

(** [for (k = lo; k < hi; k++) { s = body k s; if (break) break; }]:
    the body returns the new state and whether it executed [break]. *)
Fixpoint for_break_from {S : Type} (body : nat -> S -> S * bool)
    (count k : nat) (s : S) : S :=
  match count with
  | O => s
  | Datatypes.S count' =>
      let (s', stop) := body k s in
      if stop then s' else for_break_from body count' (Datatypes.S k) s'
  end.

Definition for_loop_break {S : Type} (lo hi : nat)
    (body : nat -> S -> S * bool) (s : S) : S :=
  for_break_from body (hi - lo) lo s.

(** [for (k = lo; k < hi; k++) { s = body k s; }] *)
Definition for_loop {S : Type} (lo hi : nat) (body : nat -> S -> S) (s : S) : S :=
  for_loop_break lo hi (fun k s => (body k s, false)) s.

(** ** algorithms.js *)

Module Algorithms.

(** One entry of [ALGORITHMS]. *)
Record AlgorithmInfo := {
  key : string;
  name : string;
  description : string;
  rules : list string
}.

Definition bubble : AlgorithmInfo := {|
  key := "bubble";
  name := "Metoda Bulelor";
  description := "Compară perechi adiacente de la stânga la dreapta. Dacă elementul din stânga este mai mare, schimbă-le. Continuă până când lista este sortată.";
  rules := [ "Poți schimba DOAR elemente adiacente (unul lângă altul)";
             "Schimbă doar dacă elementul din stânga > elementul din dreapta";
             "Parcurge de la stânga la dreapta, în ordine" ]
|}.

Definition selection : AlgorithmInfo := {|
  key := "selection";
  name := "Metoda Selecției";
  description := "Găsește elementul minim din partea nesortată și mută-l la începutul părții nesortate.";
  rules := [ "Găsește cel mai mic element din partea nesortată";
             "Schimbă minimul cu primul element nesortat";
             "Prima poziție nesortată avansează cu 1" ]
|}.

Definition dquote : string := String (Ascii.ascii_of_nat 34) EmptyString.

Definition insertion : AlgorithmInfo := {|
  key := "insertion";
  name := "Metoda Inserției";
  description := "Ia fiecare element din partea nesortată și inserează-l în poziția corectă în partea sortată, mutându-l spre stânga.";
  rules := [ "Elementele din stânga sunt considerate " +:+ dquote +:+ "sortate" +:+ dquote;
             "Ia primul element nesortat";
             "Mută-l spre stânga până când ajunge la poziția corectă" ]
|}.

(** [Object.keys(ALGORITHMS)], in insertion order. *)
Definition ALGORITHMS_keys : list string := ["bubble"; "selection"; "insertion"].

(** The names every plain object inherits from [Object.prototype]: a
    property read [ALGORITHMS[k]] with one of these names yields a function
    (an object for [__proto__]), not [undefined]. *)
Definition object_prototype_names : list string :=
  [ "constructor"; "__defineGetter__"; "__defineSetter__"; "hasOwnProperty";
    "__lookupGetter__"; "__lookupSetter__"; "isPrototypeOf";
    "propertyIsEnumerable"; "toString"; "valueOf"; "__proto__";
    "toLocaleString" ].

(** The value of a property read [ALGORITHMS[k]]. *)
Inductive AlgorithmRef :=
| Descriptor (d : AlgorithmInfo)     (* an own entry *)
| Inherited (k : string)             (* a member of [Object.prototype] *)
| Undefined.

Definition ALGORITHMS (k : string) : AlgorithmRef :=
  if decide (k = "bubble") then Descriptor bubble
  else if decide (k = "selection") then Descriptor selection
  else if decide (k = "insertion") then Descriptor insertion
  else if decide (k ∈ object_prototype_names) then Inherited k
  else Undefined.

(** JavaScript truthiness of such a value. *)
Definition truthy (r : AlgorithmRef) : bool :=
  match r with Undefined => false | _ => true end.

(** [r.key]: functions and [Object.prototype] have no [key] property. *)
Definition ref_key (r : AlgorithmRef) : option string :=
  match r with Descriptor d => Some (key d) | _ => None end.

(** [STEP_TYPES] *)
Inductive StepType := SWAP | COMPARE | NO_ACTION.

(** The algorithm-specific fields of a step object. *)
Inductive StepMeta :=
| BubbleMeta (pass position : nat)
| SelectionMeta (sortedPosition minIndex : nat)
| InsertionMeta (insertingElement currentPosition : nat).

Record Step := {
  type : StepType;
  indices : nat * nat;
  values : Z * Z;
  message : string;
  meta : StepMeta
}.

(** The generators' working state: the private copy [array] of the input
    and the queue [steps] built by [steps.push]. *)
Record Sim := { array : list Z; steps : list Step }.

(** [[a[i], a[j]] = [a[j], a[i]]] where [a[i]] was read as [x] and [a[j]]
    as [y]: first [a[i] = y], then [a[j] = x]. *)
Definition swap_cells (a : list Z) (i j : nat) (x y : Z) : list Z :=
  <[j := x]> (<[i := y]> a).

(** [steps.push(step)] followed by the virtual swap. *)
Definition record_swap (sm : Sim) (st : Step) (i j : nat) (x y : Z) : Sim :=
  {| array := swap_cells (array sm) i j x y; steps := steps sm ++ [st] |}.

(** *** Bubble sort *)

Definition bubble_step (i j : nat) (x y : Z) : Step := {|
  type := SWAP;
  indices := (j, j + 1);
  values := (x, y);
  message := "Schimbă " +:+ pretty x +:+ " cu " +:+ pretty y +:+
             " (poziții " +:+ pretty j +:+ " și " +:+ pretty (j + 1) +:+ ")";
  meta := BubbleMeta (i + 1) j
|}.

(** Body of the inner loop; the boolean is [swapped]. *)
Definition bubble_compare (i j : nat) (st : Sim * bool) : Sim * bool :=
  match array st.1 !! j, array st.1 !! (j + 1) with
  | Some x, Some y =>
      if (x >? y)%Z
      then (record_swap st.1 (bubble_step i j x y) j (j + 1) x y, true)
      else st
  | _, _ => st
  end.

(** Body of the outer loop: one pass, then [if (!swapped) break]. *)
Definition bubble_pass (n i : nat) (sm : Sim) : Sim * bool :=
  let (sm', swapped) := for_loop 0 (n - i - 1) (bubble_compare i) (sm, false) in
  (sm', negb swapped).

Definition bubble_run (arr : list Z) : Sim :=
  let n := length arr in
  for_loop_break 0 (n - 1) (bubble_pass n) {| array := arr; steps := [] |}.

Definition generateBubbleSortSteps (arr : list Z) : list Step :=
  steps (bubble_run arr).

(** *** Selection sort *)

Definition selection_step (i minIdx : nat) (x y : Z) : Step := {|
  type := SWAP;
  indices := (i, minIdx);
  values := (x, y);
  message := "Mută minimul " +:+ pretty y +:+ " de la poziția " +:+
             pretty minIdx +:+ " la poziția " +:+ pretty i;
  meta := SelectionMeta i minIdx
|}.

(** Body of the inner loop: [if (array[j] < array[minIdx]) minIdx = j]. *)
Definition selection_scan (a : list Z) (j minIdx : nat) : nat :=
  match a !! j, a !! minIdx with
  | Some x, Some y => if (x <? y)%Z then j else minIdx
  | _, _ => minIdx
  end.

(** The search for the minimum of the suffix that starts at [i]. *)
Definition selection_min_index (a : list Z) (n i : nat) : nat :=
  for_loop (i + 1) n (selection_scan a) i.

(** Body of the outer loop. *)
Definition selection_place (n i : nat) (sm : Sim) : Sim :=
  let minIdx := selection_min_index (array sm) n i in
  if decide (minIdx ≠ i) then
    match array sm !! i, array sm !! minIdx with
    | Some x, Some y => record_swap sm (selection_step i minIdx x y) i minIdx x y
    | _, _ => sm
    end
  else sm.

Definition selection_run (arr : list Z) : Sim :=
  let n := length arr in
  for_loop 0 (n - 1) (selection_place n) {| array := arr; steps := [] |}.

Definition generateSelectionSortSteps (arr : list Z) : list Step :=
  steps (selection_run arr).

(** *** Insertion sort *)

Definition insertion_step (i j : nat) (x y : Z) : Step := {|
  type := SWAP;
  indices := (j - 1, j);
  values := (x, y);
  message := "Mută " +:+ pretty y +:+ " spre stânga (schimbă cu " +:+
             pretty x +:+ ")";
  meta := InsertionMeta i j
|}.

(** [while (j > 0 && array[j - 1] > array[j]) { ...; j--; }] *)
Fixpoint insertion_shift (i j : nat) (sm : Sim) : Sim :=
  match j with
  | O => sm
  | Datatypes.S j' =>
      match array sm !! j', array sm !! j with
      | Some x, Some y =>
          if (x >? y)%Z
          then insertion_shift i j' (record_swap sm (insertion_step i j x y) j' j x y)
          else sm
      | _, _ => sm
      end
  end.

Definition insertion_run (arr : list Z) : Sim :=
  let n := length arr in
  for_loop 1 n (fun i sm => insertion_shift i i sm) {| array := arr; steps := [] |}.

Definition generateInsertionSortSteps (arr : list Z) : list Step :=
  steps (insertion_run arr).

(** *** Dispatch, validation and messages *)

(** The result of a call that may throw. *)
Inductive Throws (A : Type) :=
| Returned (v : A)
| Thrown (msg : string).
Arguments Returned {A} v.
Arguments Thrown {A} msg.

(** How a template literal prints an algorithm key that may be
    [undefined]. *)
Definition show_key (k : option string) : string := default "undefined" k.

(** One [case] label of a [switch (algorithmKey)]: strict equality with a
    string.  The key is [None] when the caller passes [undefined]. *)
Definition is_case (algorithmKey : option string) (label : string) : bool :=
  bool_decide (algorithmKey = Some label).

Definition generateStepsForAlgorithm (algorithmKey : option string)
    (arr : list Z) : Throws (list Step) :=
  if is_case algorithmKey "bubble" then
    Returned (generateBubbleSortSteps arr)
  else if is_case algorithmKey "selection" then
    Returned (generateSelectionSortSteps arr)
  else if is_case algorithmKey "insertion" then
    Returned (generateInsertionSortSteps arr)
  else Thrown ("Algoritm necunoscut: " +:+ show_key algorithmKey).

(** [expectedStep] is [None] for [null] or [undefined]. *)
Definition validateMove (expectedStep : option Step) (index1 index2 : Z) : bool :=
  match expectedStep with
  | None => false
  | Some st =>
      let '(expectedIdx1, expectedIdx2) := indices st in
      (bool_decide (index1 = Z.of_nat expectedIdx1) &&
       bool_decide (index2 = Z.of_nat expectedIdx2)) ||
      (bool_decide (index1 = Z.of_nat expectedIdx2) &&
       bool_decide (index2 = Z.of_nat expectedIdx1))
  end.

Definition getErrorMessage (algorithmKey : option string)
    (expectedStep : option Step) (index1 index2 : Z) : string :=
  match expectedStep with
  | None => "Nu mai sunt mutări necesare! Verifică dacă array-ul este sortat."
  | Some st =>
      let '(expIdx1, expIdx2) := indices st in
      let '(expVal1, expVal2) := values st in
      if is_case algorithmKey "bubble" then
        if bool_decide (Z.abs (index1 - index2) ≠ 1%Z) then
          "Metoda Bulelor: Poți schimba doar elemente ADIACENTE! Trebuie să schimbi pozițiile "
            +:+ pretty expIdx1 +:+ " și " +:+ pretty expIdx2 +:+ "."
        else
          "Mutare greșită! Conform Metodei Bulelor, trebuie să compari elementele de la pozițiile "
            +:+ pretty expIdx1 +:+ " și " +:+ pretty expIdx2 +:+ " (valorile "
            +:+ pretty expVal1 +:+ " și " +:+ pretty expVal2 +:+ ")."
      else if is_case algorithmKey "selection" then
        "Mutare greșită! Conform Metodei Selecției, trebuie să muți minimul ("
          +:+ pretty expVal2 +:+ ") de la poziția " +:+ pretty expIdx2
          +:+ " la poziția " +:+ pretty expIdx1 +:+ "."
      else if is_case algorithmKey "insertion" then
        "Mutare greșită! Conform Metodei Inserției, trebuie să muți elementul "
          +:+ pretty expVal2 +:+ " de la poziția " +:+ pretty expIdx2
          +:+ " spre stânga, schimbându-l cu " +:+ pretty expVal1 +:+ "."
      else
        "Mutare greșită! Trebuie să schimbi elementele de la pozițiile "
          +:+ pretty expIdx1 +:+ " și " +:+ pretty expIdx2 +:+ "."
  end.

Definition getNextMoveHint (algorithmKey : option string)
    (nextStep : option Step) : string :=
  match nextStep with
  | None => "Array-ul este sortat! Apasă " +:+ dquote +:+ "Verifică Soluția"
              +:+ dquote +:+ "."
  | Some st =>
      let '(idx1, idx2) := indices st in
      let '(val1, val2) := values st in
      if is_case algorithmKey "bubble" then
        "Compară pozițiile " +:+ pretty idx1 +:+ " și " +:+ pretty idx2
          +:+ ": schimbă " +:+ pretty val1 +:+ " cu " +:+ pretty val2
      else if is_case algorithmKey "selection" then
        "Găsește minimul (" +:+ pretty val2 +:+ ") și mută-l la poziția "
          +:+ pretty idx1
      else if is_case algorithmKey "insertion" then
        "Inserează " +:+ pretty val2 +:+ ": schimbă cu " +:+ pretty val1
          +:+ " (poziția " +:+ pretty idx1 +:+ ")"
      else
        "Schimbă pozițiile " +:+ pretty idx1 +:+ " și " +:+ pretty idx2
  end.

End Algorithms.

(** ** game-engine.js *)

Module GameEngine.
Import Algorithms.

(** [GAME_STATES] *)
Inductive GameState := IDLE | PLAYING | COMPLETED | PAUSED.

#[global] Instance GameState_eq_dec : EqDecision GameState.
Proof. solve_decision. Defined.

Record Stats := {
  totalMoves : nat;
  correctMoves : nat;
  incorrectMoves : nat;
  startTime : option Z;
  endTime : option Z
}.

(** The fields of a [GameEngine] object.  [currentAlgorithm] and
    [selectedIndex] are [None] when the field holds [null]. *)
Record Engine := {
  state : GameState;
  numbers : list Z;
  originalNumbers : list Z;
  currentAlgorithm : option AlgorithmRef;
  stepQueue : list Step;
  currentStepIndex : nat;
  selectedIndex : option Z;
  stats : Stats
}.

Definition set_state (v : GameState) (g : Engine) : Engine :=
  {| state := v; numbers := numbers g; originalNumbers := originalNumbers g;
     currentAlgorithm := currentAlgorithm g; stepQueue := stepQueue g;
     currentStepIndex := currentStepIndex g; selectedIndex := selectedIndex g;
     stats := stats g |}.

Definition set_numbers (v : list Z) (g : Engine) : Engine :=
  {| state := state g; numbers := v; originalNumbers := originalNumbers g;
     currentAlgorithm := currentAlgorithm g; stepQueue := stepQueue g;
     currentStepIndex := currentStepIndex g; selectedIndex := selectedIndex g;
     stats := stats g |}.

Definition set_originalNumbers (v : list Z) (g : Engine) : Engine :=
  {| state := state g; numbers := numbers g; originalNumbers := v;
     currentAlgorithm := currentAlgorithm g; stepQueue := stepQueue g;
     currentStepIndex := currentStepIndex g; selectedIndex := selectedIndex g;
     stats := stats g |}.

Definition set_currentAlgorithm (v : option AlgorithmRef) (g : Engine) : Engine :=
  {| state := state g; numbers := numbers g; originalNumbers := originalNumbers g;
     currentAlgorithm := v; stepQueue := stepQueue g;
     currentStepIndex := currentStepIndex g; selectedIndex := selectedIndex g;
     stats := stats g |}.

Definition set_stepQueue (v : list Step) (g : Engine) : Engine :=
  {| state := state g; numbers := numbers g; originalNumbers := originalNumbers g;
     currentAlgorithm := currentAlgorithm g; stepQueue := v;
     currentStepIndex := currentStepIndex g; selectedIndex := selectedIndex g;
     stats := stats g |}.

Definition set_currentStepIndex (v : nat) (g : Engine) : Engine :=
  {| state := state g; numbers := numbers g; originalNumbers := originalNumbers g;
     currentAlgorithm := currentAlgorithm g; stepQueue := stepQueue g;
     currentStepIndex := v; selectedIndex := selectedIndex g;
     stats := stats g |}.

Definition set_selectedIndex (v : option Z) (g : Engine) : Engine :=
  {| state := state g; numbers := numbers g; originalNumbers := originalNumbers g;
     currentAlgorithm := currentAlgorithm g; stepQueue := stepQueue g;
     currentStepIndex := currentStepIndex g; selectedIndex := v;
     stats := stats g |}.

Definition set_stats (v : Stats) (g : Engine) : Engine :=
  {| state := state g; numbers := numbers g; originalNumbers := originalNumbers g;
     currentAlgorithm := currentAlgorithm g; stepQueue := stepQueue g;
     currentStepIndex := currentStepIndex g; selectedIndex := selectedIndex g;
     stats := v |}.

(** [this.stats.totalMoves++] and its siblings. *)
Definition inc_totalMoves (st : Stats) : Stats :=
  {| totalMoves := totalMoves st + 1; correctMoves := correctMoves st;
     incorrectMoves := incorrectMoves st; startTime := startTime st;
     endTime := endTime st |}.

Definition inc_correctMoves (st : Stats) : Stats :=
  {| totalMoves := totalMoves st; correctMoves := correctMoves st + 1;
     incorrectMoves := incorrectMoves st; startTime := startTime st;
     endTime := endTime st |}.

Definition inc_incorrectMoves (st : Stats) : Stats :=
  {| totalMoves := totalMoves st; correctMoves := correctMoves st;
     incorrectMoves := incorrectMoves st + 1; startTime := startTime st;
     endTime := endTime st |}.

Definition set_startTime (t : option Z) (st : Stats) : Stats :=
  {| totalMoves := totalMoves st; correctMoves := correctMoves st;
     incorrectMoves := incorrectMoves st; startTime := t;
     endTime := endTime st |}.

Definition set_endTime (t : option Z) (st : Stats) : Stats :=
  {| totalMoves := totalMoves st; correctMoves := correctMoves st;
     incorrectMoves := incorrectMoves st; startTime := startTime st;
     endTime := t |}.

(** [new GameEngine()]: the constructor calls [reset()] on an object
    without fields. *)
Definition new_GameEngine : Engine := {|
  state := IDLE;
  numbers := [];
  originalNumbers := [];
  currentAlgorithm := None;
  stepQueue := [];
  currentStepIndex := 0;
  selectedIndex := None;
  stats := {| totalMoves := 0; correctMoves := 0; incorrectMoves := 0;
              startTime := None; endTime := None |}
|}.

(** [reset()]: every field is overwritten, so the state it leaves does not
    depend on the state before. *)
Definition reset (_ : Engine) : Engine := new_GameEngine.

(** A thrown value: [new Error(msg)], or the [TypeError] of a property
    read on [null]. *)
Inductive JsError :=
| Error (msg : string)
| TypeError.

(** What a call leaves behind.  [Return] and [Throw] carry the state of
    the engine after the call.  The other two are the limits of the model:
    [OutOfDraws] when the call asks for more random numbers than the list
    of draws holds, [Unmodelled] when an array cell would hold
    [undefined], which a [list Z] cannot. *)
Inductive Call (A : Type) :=
| Return (v : A) (g : Engine)
| Throw (e : JsError) (g : Engine)
| OutOfDraws
| Unmodelled.
Arguments Return {A} v g.
Arguments Throw {A} e g.
Arguments OutOfDraws {A}.
Arguments Unmodelled {A}.

(** The state a call leaves, when the model has one. *)
Definition state_after {A : Type} (c : Call A) : option Engine :=
  match c with
  | Return _ g | Throw _ g => Some g
  | OutOfDraws | Unmodelled => None
  end.

(** *** Random numbers *)

(** [Math.floor(Math.random() * k)] for the draw [d]: any of [0 .. k-1]. *)
Definition random_below (k : nat) (d : nat) : nat := d mod k.

(** The result of a computation that consumes draws: a value and the
    draws left, or one of the two limits of the model. *)
Inductive Drawn (A : Type) :=
| Got (v : A) (rest : list nat)
| NoMoreDraws
| UndefinedCell.
Arguments Got {A} v rest.
Arguments NoMoreDraws {A}.
Arguments UndefinedCell {A}.

(** [arr.every((val, idx) => f(val, idx))] from index [idx] on. *)
Fixpoint every_from {A : Type} (f : A -> nat -> bool) (idx : nat) (l : list A) : bool :=
  match l with
  | [] => true
  | val :: l' => f val idx && every_from f (Datatypes.S idx) l'
  end.

(** [arr.every((val, idx) => idx === 0 || val >= arr[idx - 1])] *)
Definition nondecreasing (arr : list Z) : bool :=
  every_from (fun val idx =>
    bool_decide (idx = 0) ||
    match arr !! (idx - 1) with
    | Some prev => (val >=? prev)%Z
    | None => false
    end) 0 arr.

(** [numbers.add(v)] on a [Set], kept in insertion order. *)
Definition set_add (v : Z) (numbers : list Z) : list Z :=
  if decide (v ∈ numbers) then numbers else numbers ++ [v].

(** [while (numbers.size < numCount) numbers.add(...)] *)
Fixpoint fill_numbers (numCount : nat) (min max : Z) (numbers : list Z)
    (draws : list nat) : Drawn (list Z) :=
  if decide (length numbers < numCount) then
    match draws with
    | [] => NoMoreDraws
    | d :: draws' =>
        let v := (Z.of_nat d mod (max - min + 1) + min)%Z in
        fill_numbers numCount min max (set_add v numbers) draws'
    end
  else Got numbers draws.

(** [for (let i = arr.length - 1; i > 0; i--)]: Fisher-Yates. *)
Fixpoint shuffle (i : nat) (arr : list Z) (draws : list nat) : Drawn (list Z) :=
  match i with
  | O => Got arr draws
  | Datatypes.S i' =>
      match draws with
      | [] => NoMoreDraws
      | d :: draws' =>
          let j := random_below (i + 1) d in
          match arr !! i, arr !! j with
          | Some x, Some y => shuffle i' (swap_cells arr i j x y) draws'
          | _, _ => UndefinedCell
          end
      end
  end.

(** [generateRandomNumbers(count = null, min = 1, max = 20)], for
    [min <= max].  [count] is [None] for [null]; a count of [0] is falsy
    too. *)
Definition generateRandomNumbers (count : option nat) (min max : Z)
    (draws : list nat) : Drawn (list Z) :=
  let numCount :=
    match count with
    | Some (Datatypes.S c) => Got (Datatypes.S c) draws
    | _ =>
        match draws with
        | [] => NoMoreDraws
        | d :: draws' => Got (random_below 3 d + 5) draws'
        end
    end in
  match numCount with
  | Got numCount draws1 =>
      match fill_numbers numCount min max [] draws1 with
      | Got arr draws2 =>
          match shuffle (length arr - 1) arr draws2 with
          | Got arr' draws3 =>
              if nondecreasing arr' then
                match arr' !! 0, arr' !! 1 with
                | Some x, Some y => Got (swap_cells arr' 0 1 x y) draws3
                | _, _ => UndefinedCell
                end
              else Got arr' draws3
          | NoMoreDraws => NoMoreDraws
          | UndefinedCell => UndefinedCell
          end
      | NoMoreDraws => NoMoreDraws
      | UndefinedCell => UndefinedCell
      end
  | NoMoreDraws => NoMoreDraws
  | UndefinedCell => UndefinedCell
  end.

(** [selectRandomAlgorithm()] *)
Definition selectRandomAlgorithm (draws : list nat) : Drawn AlgorithmRef :=
  match draws with
  | [] => NoMoreDraws
  | d :: draws' =>
      match ALGORITHMS_keys !! random_below (length ALGORITHMS_keys) d with
      | Some randomKey => Got (ALGORITHMS randomKey) draws'
      | None => Got Undefined draws'
      end
  end.

(** *** Queries *)

Definition isSorted (g : Engine) : bool := nondecreasing (numbers g).

(** [this.currentAlgorithm?.key] *)
Definition currentKey (g : Engine) : option string :=
  match currentAlgorithm g with
  | Some r => ref_key r
  | None => None
  end.

Definition getNextMoveHint (g : Engine) : string :=
  Algorithms.getNextMoveHint (currentKey g) (stepQueue g !! currentStepIndex g).

Definition getCurrentExpectedStep (g : Engine) : option Step :=
  stepQueue g !! currentStepIndex g.

(** [getProgress()] without its [percentage], which is the rounding of a
    floating-point quotient. *)
Record Progress := {
  completed : nat;
  total : nat;
  remaining : Z
}.

Definition getProgress (g : Engine) : Progress := {|
  completed := currentStepIndex g;
  total := length (stepQueue g);
  remaining := (Z.of_nat (length (stepQueue g)) - Z.of_nat (currentStepIndex g))%Z
|}.

Definition completeGame (now : Z) (g : Engine) : Engine :=
  set_stats (set_endTime (Some now) (stats g)) (set_state COMPLETED g).

(** *** Starting a game *)

(** What [startNewGame] returns. *)
Record GameInfo := {
  info_numbers : list Z;
  info_algorithm : option AlgorithmRef;
  info_totalSteps : nat;
  info_firstHint : string
}.

(** [algorithmKey && ALGORITHMS[algorithmKey]]: [None] is [null]; the
    empty string is falsy as well. *)
Definition recognized (algorithmKey : option string) : option AlgorithmRef :=
  match algorithmKey with
  | Some k =>
      if decide (k = EmptyString) then None
      else if truthy (ALGORITHMS k) then Some (ALGORITHMS k) else None
  | None => None
  end.

(** [startNewGame(algorithmKey = null)] called at time [now]. *)
Definition startNewGame (algorithmKey : option string) (now : Z)
    (draws : list nat) (g : Engine) : Call GameInfo :=
  let g0 := reset g in
  let chosen :=
    match recognized algorithmKey with
    | Some r => Got r draws
    | None => selectRandomAlgorithm draws
    end in
  match chosen with
  | Got alg draws1 =>
      let g1 := set_currentAlgorithm (Some alg) g0 in
      match generateRandomNumbers None 1 20 draws1 with
      | Got arr _ =>
          let g2 := set_originalNumbers arr (set_numbers arr g1) in
          match generateStepsForAlgorithm (ref_key alg) arr with
          | Returned queue =>
              let g3 := set_currentStepIndex 0 (set_stepQueue queue g2) in
              let g4 := set_state PLAYING g3 in
              let g5 := set_stats (set_startTime (Some now) (stats g4)) g4 in
              Return {| info_numbers := numbers g5;
                        info_algorithm := currentAlgorithm g5;
                        info_totalSteps := length (stepQueue g5);
                        info_firstHint := getNextMoveHint g5 |} g5
          | Thrown msg => Throw (Error msg) g2
          end
      | NoMoreDraws => OutOfDraws
      | UndefinedCell => Unmodelled
      end
  | NoMoreDraws => OutOfDraws
  | UndefinedCell => Unmodelled
  end.

(** How a template literal prints a key that may be [null]. *)
Definition show_nullable (k : option string) : string := default "null" k.

(** [changeAlgorithm(algorithmKey)]: the guard is [ALGORITHMS[algorithmKey]]
    alone, and the property name of [null] is the string [null]. *)
Definition changeAlgorithm (algorithmKey : option string) (now : Z)
    (draws : list nat) (g : Engine) : Call GameInfo :=
  if truthy (ALGORITHMS (show_nullable algorithmKey))
  then startNewGame algorithmKey now draws g
  else Throw (Error ("Algoritm necunoscut: " +:+ show_nullable algorithmKey)) g.

(** *** Moves *)

(** The object literal that [selectElement] and [attemptSwap] return; a
    field the literal does not have is [None]. *)
Record Result := {
  res_success : bool;
  res_correct : option bool;
  res_completed : option bool;
  res_action : option string;
  res_selectedIndex : option Z;
  res_indices : option (Z * Z);
  res_expectedIndices : option (nat * nat);
  res_message : string;
  res_nextHint : option string;
  res_hint : option string;
  res_progress : option Progress
}.

(** [{ success, message }] *)
Definition plain_result (ok : bool) (msg : string) : Result := {|
  res_success := ok; res_correct := None; res_completed := None;
  res_action := None; res_selectedIndex := None; res_indices := None;
  res_expectedIndices := None; res_message := msg; res_nextHint := None;
  res_hint := None; res_progress := None
|}.

(** [a[i]] for an integer [i]: a negative index names no cell. *)
Definition read (a : list Z) (i : Z) : option Z :=
  if (i <? 0)%Z then None else a !! Z.to_nat i.

(** How a template literal prints a cell. *)
Definition show_cell (c : option Z) : string :=
  match c with Some v => pretty v | None => "undefined" end.

(** [attemptSwap(index1, index2)] called at time [now]. *)
Definition attemptSwap (index1 index2 : Z) (now : Z) (g : Engine) : Call Result :=
  if decide (state g ≠ PLAYING) then
    Return {| res_success := false; res_correct := Some false;
              res_completed := None; res_action := None;
              res_selectedIndex := None; res_indices := None;
              res_expectedIndices := None;
              res_message := "Jocul nu este activ!";
              res_nextHint := None; res_hint := None; res_progress := None |} g
  else
    let g1 := set_stats (inc_totalMoves (stats g)) g in
    match stepQueue g1 !! currentStepIndex g1 with
    | None =>
        if isSorted g1 then
          Return {| res_success := true; res_correct := Some true;
                    res_completed := Some true; res_action := None;
                    res_selectedIndex := None; res_indices := None;
                    res_expectedIndices := None;
                    res_message := "Felicitări! Array-ul este deja sortat!";
                    res_nextHint := None; res_hint := None;
                    res_progress := None |} (completeGame now g1)
        else
          Return {| res_success := false; res_correct := Some false;
                    res_completed := None; res_action := None;
                    res_selectedIndex := None; res_indices := None;
                    res_expectedIndices := None;
                    res_message := "Nu mai sunt mutări necesare. Verifică soluția!";
                    res_nextHint := None; res_hint := None;
                    res_progress := None |} g1
    | Some expectedStep =>
        if validateMove (Some expectedStep) index1 index2 then
          let g2 := set_stats (inc_correctMoves (stats g1)) g1 in
          match read (numbers g2) index1, read (numbers g2) index2 with
          | Some x, Some y =>
              let g3 :=
                set_numbers (swap_cells (numbers g2) (Z.to_nat index1)
                                        (Z.to_nat index2) x y) g2 in
              let g4 := set_currentStepIndex (currentStepIndex g3 + 1) g3 in
              let isComplete :=
                length (stepQueue g4) <=? currentStepIndex g4 in
              let g5 := if isComplete then completeGame now g4 else g4 in
              Return {| res_success := true; res_correct := Some true;
                        res_completed := Some isComplete; res_action := None;
                        res_selectedIndex := None;
                        res_indices := Some (index1, index2);
                        res_expectedIndices := None;
                        res_message := "Corect! Continuă.";
                        res_nextHint := Some (getNextMoveHint g5);
                        res_hint := None;
                        res_progress := Some (getProgress g5) |} g5
          | _, _ => Unmodelled
          end
        else
          let g2 := set_stats (inc_incorrectMoves (stats g1)) g1 in
          match currentAlgorithm g2 with
          | None => Throw TypeError g2
          | Some alg =>
              let errorMessage :=
                getErrorMessage (ref_key alg) (Some expectedStep) index1 index2 in
              Return {| res_success := false; res_correct := Some false;
                        res_completed := None; res_action := None;
                        res_selectedIndex := None;
                        res_indices := Some (index1, index2);
                        res_expectedIndices := Some (indices expectedStep);
                        res_message := errorMessage;
                        res_nextHint := None;
                        res_hint := Some (getNextMoveHint g2);
                        res_progress := None |} g2
          end
    end.

(** [selectElement(index)] called at time [now]. *)
Definition selectElement (index : Z) (now : Z) (g : Engine) : Call Result :=
  if decide (state g ≠ PLAYING) then
    Return (plain_result false "Jocul nu este activ!") g
  else if decide (index < 0 ∨ index >= Z.of_nat (length (numbers g)))%Z then
    Return (plain_result false "Index invalid!") g
  else
    match selectedIndex g with
    | None =>
        Return {| res_success := true; res_correct := None;
                  res_completed := None; res_action := Some "selected";
                  res_selectedIndex := Some index; res_indices := None;
                  res_expectedIndices := None;
                  res_message := "Selectat " +:+ show_cell (read (numbers g) index)
                                 +:+ ". Alege alt element pentru schimbare.";
                  res_nextHint := None; res_hint := None;
                  res_progress := None |}
               (set_selectedIndex (Some index) g)
    | Some firstIndex =>
        if decide (firstIndex = index) then
          Return {| res_success := true; res_correct := None;
                    res_completed := None; res_action := Some "deselected";
                    res_selectedIndex := None; res_indices := None;
                    res_expectedIndices := None;
                    res_message := "Selecție anulată.";
                    res_nextHint := None; res_hint := None;
                    res_progress := None |}
                 (set_selectedIndex None g)
        else
          attemptSwap firstIndex index now (set_selectedIndex None g)
    end.

End GameEngine.

Import Algorithms GameEngine.

(** ** Vocabulary of the properties *)

(** Applying one step of a plan to a sequence: the cells at the step's two
    positions trade places. *)
Definition apply_step (a : list Z) (st : Step) : list Z :=
  match a !! (indices st).1, a !! (indices st).2 with
  | Some x, Some y => swap_cells a (indices st).1 (indices st).2 x y
  | _, _ => a
  end.

(** Applying the steps of a plan, in order. *)
Definition apply_plan (a : list Z) (plan : list Step) : list Z :=
  fold_left apply_step plan a.

(** A non-decreasing sequence. *)
Definition nondecreasing_seq (a : list Z) : Prop := Sorted Z.le a.

(** The same, cell by cell. *)
Definition adjacent_ordered (a : list Z) : Prop :=
  ∀ k, k + 1 < length a → (a !!! k ≤ a !!! (k + 1)%nat)%Z.

(** [Number.isSafeInteger(v)]: the integers that a template literal
    prints digit by digit. *)
Definition safe_integer (v : Z) : Prop :=
  (- (2 ^ 53 - 1) ≤ v ≤ 2 ^ 53 - 1)%Z.

(** A step as the generators record it on the array [a]: a swap of two
    positions, the left one first, whose recorded values are the cells of
    [a] at these positions, the left one being the larger. *)
Definition step_ok (a : list Z) (st : Step) : Prop :=
  type st = SWAP ∧
  (indices st).1 < (indices st).2 ∧
  a !! (indices st).1 = Some (values st).1 ∧
  a !! (indices st).2 = Some (values st).2 ∧
  ((values st).2 < (values st).1)%Z.

(** Every step of the plan is such a step on the sequence that the steps
    before it leave. *)
Definition trace_ok (arr : list Z) (plan : list Step) : Prop :=
  ∀ k st, plan !! k = Some st → step_ok (apply_plan arr (take k plan)) st.

(** The working state of a generator started on [arr]. *)
Record sim_ok (arr : list Z) (sm : Sim) : Prop := {
  ok_length : length (array sm) = length arr;
  ok_replay : apply_plan arr (steps sm) = array sm;
  ok_trace : trace_ok arr (steps sm)
}.

(** What each of the three runs establishes of its final state. *)
Definition run_ok (arr : list Z) (sm : Sim) : Prop :=
  sim_ok arr sm ∧ adjacent_ordered (array sm).

(** Bubble sort after [i] passes: each of the last [i] cells is at least
    every cell before it. *)
Definition tail_settled (n i : nat) (a : list Z) : Prop :=
  ∀ p q, p < q → n - i ≤ q → q < n → (a !!! p ≤ a !!! q)%Z.

(** Selection sort at boundary [i]: each of the first [i] cells is at most
    every cell after it. *)
Definition head_settled (i : nat) (a : list Z) : Prop :=
  ∀ p q, p < i → p < q → q < length a → (a !!! p ≤ a !!! q)%Z.

(** Insertion sort while the cell that started at [i] sits at [j]: the
    first [i + 1] cells are in order once the cell at [j] is left out. *)
Definition ordered_around (i j : nat) (a : list Z) : Prop :=
  (∀ k, k + 1 ≤ i → k + 1 ≠ j → (a !!! k ≤ a !!! (k + 1)%nat)%Z) ∧
  (0 < j → j < i → (a !!! (j - 1)%nat ≤ a !!! (j + 1)%nat)%Z).

(** Selection sort has nothing to move: at every boundary position [i]
    (from 0 to n-2) the cell at [i] is a minimum of the suffix that starts
    at [i]. *)
Definition suffix_minima_in_place (a : list Z) : Prop :=
  ∀ i, i + 1 < length a → ∀ j, i ≤ j → j < length a → (a !!! i ≤ a !!! j)%Z.

(** The unordered pair of two positions. *)
Definition unordered_pair (a b : Z) : gset Z := {[a; b]}.

(** The session that [startNewGame] sets up at time [now] when the
    algorithm is [d] and the sequence drawn is [arr], with [plan] as its
    queue of steps. *)
Definition started_on (d : AlgorithmInfo) (arr : list Z) (plan : list Step)
    (now : Z) : Engine := {|
  state := PLAYING;
  numbers := arr;
  originalNumbers := arr;
  currentAlgorithm := Some (Descriptor d);
  stepQueue := plan;
  currentStepIndex := 0;
  selectedIndex := None;
  stats := {| totalMoves := 0; correctMoves := 0; incorrectMoves := 0;
              startTime := Some now; endTime := None |}
|}.

(** The kind, positions and values of a step, without its message. *)
Definition step_core (st : Step) : StepType * (nat * nat) * (Z * Z) :=
  (type st, indices st, values st).

(** The statistics add up. *)
Definition balanced (st : Stats) : Prop :=
  totalMoves st = correctMoves st + incorrectMoves st.

(** What holds of the engine between two calls. *)
Record engine_inv (g : Engine) : Prop := {
  inv_balanced : balanced (stats g);
  inv_numbers :
    numbers g =
    apply_plan (originalNumbers g) (take (currentStepIndex g) (stepQueue g));
  inv_trace : trace_ok (originalNumbers g) (stepQueue g);
  inv_playing :
    state g = PLAYING →
    currentStepIndex g < length (stepQueue g) ∧
    ∃ d, currentAlgorithm g = Some (Descriptor d)
}.

(** The states of a session: what a call of [startNewGame] leaves, on any
    engine, and from there what calls of [selectElement] leave. *)
Inductive reachable : Engine -> Prop :=
| reachable_start g algorithmKey now draws g' :
    state_after (startNewGame algorithmKey now draws g) = Some g' →
    reachable g'
| reachable_select g index now g' :
    reachable g →
    state_after (selectElement index now g) = Some g' →
    reachable g'.

(** What [generateRandomNumbers()] promises of the sequence it returns. *)
Definition fresh_sequence (arr : list Z) : Prop :=
  5 ≤ length arr ∧ length arr ≤ 7 ∧ NoDup arr ∧
  Forall (λ v, 1 ≤ v ≤ 20)%Z arr ∧ ¬ nondecreasing_seq arr.

(** Draws that let [generateRandomNumbers()] finish after any draws made
    so far: one for the count, the twenty values in turn, and enough for
    the shuffle. *)
Definition completing_draws : list nat := 0 :: seq 0 20 ++ replicate 6 0.

(** *** A sample game *)

(** The engine after a call, or a new engine if the model has no state
    for it. *)
Definition after {A : Type} (c : Call A) : Engine :=
  default new_GameEngine (state_after c).

Definition sample_draws : list nat := seq 0 18.

(** A game started at time 1000 without an algorithm key: bubble sort on
    [4; 3; 6; 8; 7; 5]. *)
Definition sample_game : Engine :=
  after (startNewGame None 1000 sample_draws new_GameEngine).

(** The sample game after the correct attempt (0, 1). *)
Definition sample_played : Engine :=
  after (selectElement 1 1002 (after (selectElement 0 1001 sample_game))).

(** And after the incorrect attempt (0, 5) that follows. *)
Definition sample_missed : Engine :=
  after (selectElement 5 1004 (after (selectElement 0 1003 sample_played))).

(** *** Counting inversions *)

(** How many cells of [l] are below [x]. *)
Fixpoint count_below (x : Z) (l : list Z) : nat :=
  match l with
  | [] => 0
  | y :: l' => (if (y <? x)%Z then 1 else 0) + count_below x l'
  end.

(** The inversions of a sequence: the pairs of positions whose cells are
    out of order, the larger cell first. *)
Fixpoint inversions (l : list Z) : nat :=
  match l with
  | [] => 0
  | x :: l' => count_below x l' + inversions l'
  end.

(** The pairs out of order with the larger cell in [l] and the smaller
    one in [s]. *)
Fixpoint cross_inversions (l s : list Z) : nat :=
  match l with
  | [] => 0
  | x :: l' => count_below x s + cross_inversions l' s
  end.

(** A step that swaps two neighbouring positions. *)
Definition adjacent_step (st : Step) : Prop :=
  (indices st).2 = (indices st).1 + 1.

(** The steps each generator records on an array of [n] cells. *)
Definition bubble_shaped (n : nat) (st : Step) : Prop :=
  ∃ i j x y, st = bubble_step i j x y ∧ i < n - 1.

Definition selection_shaped (st : Step) : Prop :=
  ∃ i minIdx x y, st = selection_step i minIdx x y.

Definition insertion_shaped (n : nat) (st : Step) : Prop :=
  ∃ i j x y, st = insertion_step i j x y ∧ 0 < j ∧ j ≤ i ∧ i < n.

(** *** Sessions *)

(** The queue of the session is the plan of its algorithm for the
    original sequence. *)
Definition plan_of_session (g : Engine) : Prop :=
  generateStepsForAlgorithm (currentKey g) (originalNumbers g)
  = Returned (stepQueue g).

(** What holds of a session besides [engine_inv], state by state. *)
Record session_inv (g : Engine) : Prop := {
  sinv_base : engine_inv g;
  sinv_fresh : fresh_sequence (originalNumbers g);
  sinv_correct : correctMoves (stats g) = currentStepIndex g;
  sinv_state :
    match state g with
    | IDLE =>
        stepQueue g = [] ∧ currentStepIndex g = 0 ∧
        startTime (stats g) = None ∧ endTime (stats g) = None
    | PLAYING =>
        plan_of_session g ∧
        is_Some (startTime (stats g)) ∧ endTime (stats g) = None
    | COMPLETED =>
        plan_of_session g ∧ currentStepIndex g = length (stepQueue g) ∧
        is_Some (startTime (stats g)) ∧ is_Some (endTime (stats g))
    | PAUSED => False
    end
}.

(** The engine after a correct swap that leaves [nums] as live sequence. *)
Definition correct_outcome (now : Z) (nums : list Z) (g : Engine) : Engine :=
  let g4 :=
    set_currentStepIndex (currentStepIndex g + 1)
      (set_numbers nums
         (set_stats (inc_correctMoves (inc_totalMoves (stats g))) g)) in
  if length (stepQueue g) <=? currentStepIndex g + 1
  then completeGame now g4 else g4.

(** A player who follows the expected step: one round per time of
    [times], each round clicking the two positions of the step that
    [getCurrentExpectedStep] shows, the left one first. *)
Fixpoint follow_hints (times : list Z) (g : Engine) : option Engine :=
  match times with
  | [] => Some g
  | now :: times' =>
      match getCurrentExpectedStep g with
      | None => None
      | Some st =>
          match state_after
                  (selectElement (Z.of_nat (indices st).1) now g) with
          | None => None
          | Some g1 =>
              match state_after
                      (selectElement (Z.of_nat (indices st).2) now g1) with
              | None => None
              | Some g2 => follow_hints times' g2
              end
          end
      end
  end.

(** What no call of [selectElement] or [attemptSwap] does to the engine:
    the plan, the original snapshot, the algorithm and the start time stay;
    the live sequence keeps its length; the cursor and the counters move
    forward only, by one at most; the state stays or becomes completed. *)
Definition framed (g g' : Engine) : Prop :=
  stepQueue g' = stepQueue g ∧
  originalNumbers g' = originalNumbers g ∧
  currentAlgorithm g' = currentAlgorithm g ∧
  startTime (stats g') = startTime (stats g) ∧
  length (numbers g') = length (numbers g) ∧
  currentStepIndex g ≤ currentStepIndex g' ≤ currentStepIndex g + 1 ∧
  totalMoves (stats g) ≤ totalMoves (stats g') ≤ totalMoves (stats g) + 1 ∧
  correctMoves (stats g) ≤ correctMoves (stats g') ≤ correctMoves (stats g) + 1 ∧
  incorrectMoves (stats g) ≤ incorrectMoves (stats g')
    ≤ incorrectMoves (stats g) + 1 ∧
  (state g' = state g ∨ state g' = COMPLETED).

(** ** Loop rules *)

Section LoopRules.
Context {S : Type}.

Lemma for_loop_break_empty (lo hi : nat) (body : nat -> S -> S * bool) s :
  hi ≤ lo → for_loop_break lo hi body s = s.
Proof.
  intros H. unfold for_loop_break.
  replace (hi - lo) with 0 by lia. reflexivity.
Qed.

(** An invariant [P k] at the head of iteration [k]; [Q] after the loop,
    whether it ends by [break] or by the bound. *)
Lemma for_loop_break_rule (P : nat -> S -> Prop) (Q : S -> Prop) (lo hi : nat)
  (body : nat -> S -> S * bool) s :
  lo ≤ hi →
  P lo s →
  (∀ k s, lo ≤ k < hi → P k s →
     if (body k s).2 then Q (body k s).1 else P (Datatypes.S k) (body k s).1) →
  (∀ s, P hi s → Q s) →
  Q (for_loop_break lo hi body s).
Proof.
  intros Hle HP Hbody Hexit. unfold for_loop_break.
  remember (hi - lo) as count eqn:Hcount.
  revert lo s Hle HP Hbody Hcount.
  induction count as [|count IH]; intros lo s Hle HP Hbody Hcount; simpl.
  - apply Hexit. replace hi with lo by lia. exact HP.
  - pose proof (Hbody lo s ltac:(lia) HP) as Hstep.
    destruct (body lo s) as [s' stop]; simpl in Hstep.
    destruct stop; [exact Hstep|].
    apply IH; [lia | exact Hstep | | lia].
    intros k s0 Hk. apply Hbody. lia.
Qed.

Lemma for_loop_empty (lo hi : nat) (body : nat -> S -> S) s :
  hi ≤ lo → for_loop lo hi body s = s.
Proof. apply for_loop_break_empty. Qed.

Lemma for_loop_rule (P : nat -> S -> Prop) (lo hi : nat)
  (body : nat -> S -> S) s :
  lo ≤ hi →
  P lo s →
  (∀ k s, lo ≤ k < hi → P k s → P (Datatypes.S k) (body k s)) →
  P hi (for_loop lo hi body s).
Proof.
  intros Hle HP Hbody. unfold for_loop.
  apply (for_loop_break_rule P (P hi) lo hi); auto.
Qed.
End LoopRules.

(** ** Arrays *)

Section Arrays.
Implicit Types (a : list Z) (i j k : nat) (x y : Z).

Lemma read_in_range a k : k < length a → a !! k = Some (a !!! k).
Proof. apply list_lookup_lookup_total_lt. Qed.

Lemma read_total a k x : a !! k = Some x → k < length a ∧ a !!! k = x.
Proof.
  intros H. split; [eapply lookup_lt_Some; eauto|].
  by apply list_lookup_total_correct.
Qed.

Lemma swap_cells_length a i j x y : length (swap_cells a i j x y) = length a.
Proof. unfold swap_cells. by rewrite !length_insert. Qed.

(** The cells of an array after two of them traded places. *)
Lemma swap_cells_read a i j k :
  i < length a → j < length a →
  swap_cells a i j (a !!! i) (a !!! j) !!! k =
    if decide (k = j) then a !!! i
    else if decide (k = i) then a !!! j
    else a !!! k.
Proof.
  intros Hi Hj. unfold swap_cells.
  destruct (decide (k = j)) as [->|Hkj].
  - apply list_lookup_total_correct, list_lookup_insert_eq.
    by rewrite length_insert.
  - rewrite list_lookup_total_insert_ne by done.
    destruct (decide (k = i)) as [->|Hki].
    + by apply list_lookup_total_correct, list_lookup_insert_eq.
    + by rewrite list_lookup_total_insert_ne.
Qed.

Lemma swap_cells_comm a i j :
  i < length a → j < length a →
  swap_cells a i j (a !!! i) (a !!! j) = swap_cells a j i (a !!! j) (a !!! i).
Proof.
  intros Hi Hj. apply list_eq_same_length with (length a);
    rewrite ?swap_cells_length; try done.
  intros k u v Hk Hu Hv.
  apply read_total in Hu as [_ <-]. apply read_total in Hv as [_ <-].
  rewrite !swap_cells_read by done.
  repeat case_decide; congruence.
Qed.

Lemma adjacent_ordered_Sorted a : adjacent_ordered a ↔ Sorted Z.le a.
Proof.
  split.
  - induction a as [|u a IH]; intros H; [constructor|].
    constructor.
    + apply IH. intros k Hk. apply (H (Datatypes.S k)). simpl. lia.
    + destruct a as [|v a]; constructor.
      apply (H 0). simpl. lia.
  - induction 1 as [|u a Hs IH Hhd]; intros k Hk; simpl in Hk; [lia|].
    destruct k as [|k].
    + destruct Hhd as [|v a Huv]; simpl in *; [lia | exact Huv].
    + apply (IH k). lia.
Qed.

(** In a non-decreasing sequence a cell is at most any later cell. *)
Lemma adjacent_ordered_le a p q :
  adjacent_ordered a → p ≤ q → q < length a → (a !!! p ≤ a !!! q)%Z.
Proof.
  intros H Hpq Hq. induction Hpq as [|q Hpq IH]; [lia|].
  specialize (H q). replace (q + 1) with (Datatypes.S q) in H by lia.
  lia.
Qed.
End Arrays.

(** ** Plans *)

Section Plans.
Implicit Types (a arr : list Z) (plan : list Step) (st : Step) (sm : Sim).

Lemma apply_plan_snoc a plan st :
  apply_plan a (plan ++ [st]) = apply_step (apply_plan a plan) st.
Proof. unfold apply_plan. by rewrite fold_left_app. Qed.

Lemma apply_step_length a st : length (apply_step a st) = length a.
Proof.
  unfold apply_step. repeat case_match; by rewrite ?swap_cells_length.
Qed.

Lemma apply_plan_length a plan : length (apply_plan a plan) = length a.
Proof.
  revert a. induction plan as [|st plan IH]; intros a; simpl; [done|].
  unfold apply_plan in *. simpl. by rewrite IH, apply_step_length.
Qed.

Lemma trace_ok_nil arr : trace_ok arr [].
Proof. intros k st H. by rewrite lookup_nil in H. Qed.

Lemma trace_ok_snoc arr plan st :
  trace_ok arr plan → step_ok (apply_plan arr plan) st →
  trace_ok arr (plan ++ [st]).
Proof.
  intros Hplan Hst k st' Hk.
  destruct (decide (k < length plan)) as [Hlt|Hge].
  - rewrite lookup_app_l in Hk by done.
    rewrite take_app_le by lia. by apply Hplan.
  - rewrite lookup_app_r in Hk by lia.
    destruct (k - length plan) as [|d] eqn:Hd; simpl in Hk; [|by destruct d].
    injection Hk as <-.
    replace k with (length plan) by lia.
    rewrite take_app_length. exact Hst.
Qed.

Lemma sim_ok_start arr : sim_ok arr {| array := arr; steps := [] |}.
Proof. split; simpl; [done | done | apply trace_ok_nil]. Qed.

(** Recording a swap of an inverted pair keeps the working state
    consistent with the plan recorded so far. *)
Lemma sim_ok_record_swap arr sm st i j :
  sim_ok arr sm →
  i < j → j < length (array sm) →
  (array sm !!! j < array sm !!! i)%Z →
  type st = SWAP → indices st = (i, j) →
  values st = (array sm !!! i, array sm !!! j) →
  sim_ok arr (record_swap sm st i j (array sm !!! i) (array sm !!! j)).
Proof.
  intros [Hlen Hrep Htr] Hij Hj Hinv Hty Hidx Hval.
  assert (array sm !! i = Some (array sm !!! i)) as Hri
    by (apply read_in_range; lia).
  assert (array sm !! j = Some (array sm !!! j)) as Hrj
    by (by apply read_in_range).
  split; simpl.
  - by rewrite swap_cells_length.
  - rewrite apply_plan_snoc, Hrep. unfold apply_step.
    rewrite Hidx; simpl. by rewrite Hri, Hrj.
  - apply trace_ok_snoc; [done|]. rewrite Hrep.
    unfold step_ok. rewrite Hidx, Hval; simpl. done.
Qed.
End Plans.

(** ** Bubble sort *)

(** Goals about the cells of an array after a swap reduce to goals about
    the cells before it. *)
Ltac swap_reads :=
  rewrite ?swap_cells_read by lia; repeat case_decide; try lia.

Section Bubble.
Variable arr : list Z.
Let n := length arr.

(** One pass: the largest cell of the unsettled prefix reaches its end. *)
Lemma bubble_inner_loop i sm :
  sim_ok arr sm → i + 1 < n → tail_settled n i (array sm) →
  let r := for_loop 0 (n - i - 1) (bubble_compare i) (sm, false) in
  sim_ok arr r.1 ∧
  length (steps r.1) ≤ length (steps sm) + (n - i - 1) ∧
  tail_settled n i (array r.1) ∧
  (∀ k, k < n - i - 1 → (array r.1 !!! k ≤ array r.1 !!! (n - i - 1)%nat)%Z) ∧
  (r.2 = false →
   ∀ k, k + 1 ≤ n - i - 1 → (array r.1 !!! k ≤ array r.1 !!! (k + 1)%nat)%Z).
Proof.
  intros Hok Hi Htail.
  apply (for_loop_rule (fun j st =>
    sim_ok arr st.1 ∧
    length (steps st.1) ≤ length (steps sm) + j ∧
    tail_settled n i (array st.1) ∧
    (∀ k, k < j → (array st.1 !!! k ≤ array st.1 !!! j)%Z) ∧
    (st.2 = false →
     ∀ k, k + 1 ≤ j → (array st.1 !!! k ≤ array st.1 !!! (k + 1)%nat)%Z))).
  - lia.
  - simpl. split; [done|]. split; [lia|]. split; [done|]. split; intros; lia.
  - intros j [s swapped] Hj (Hs & Hlen & Ht & Hmax & Hflag); simpl in *.
    pose proof (ok_length _ _ Hs) as Hn. fold n in Hn.
    unfold bubble_compare; simpl.
    rewrite (read_in_range (array s) j), (read_in_range (array s) (j + 1)) by lia.
    destruct (Z.gtb_spec (array s !!! j) (array s !!! (j + 1))) as [Hgt|Hle];
      simpl.
    + split; [apply sim_ok_record_swap; auto; lia|].
      split; [rewrite length_app; simpl; lia|].
      split; [|split; [|done]].
      * intros p q Hpq Hq Hqn. swap_reads; subst; apply Ht; lia.
      * intros k Hk. replace (Datatypes.S j) with (j + 1) by lia.
        swap_reads; subst. apply Hmax. lia.
    + split; [done|]. split; [lia|]. split; [done|]. split.
      * intros k Hk. replace (Datatypes.S j) with (j + 1) by lia.
        destruct (decide (k = j)) as [->|]; [done|].
        specialize (Hmax k). lia.
      * intros Hsw k Hk.
        destruct (decide (k = j)) as [->|]; [done|].
        apply Hflag; [done | lia].
Qed.

(** The whole run: the recorded plan replays to the working array, which
    ends up in order, and at most n(n-1)/2 swaps are recorded. *)
Lemma bubble_run_spec :
  sim_ok arr (bubble_run arr) ∧
  2 * length (steps (bubble_run arr)) ≤ n * (n - 1) ∧
  adjacent_ordered (array (bubble_run arr)).
Proof.
  unfold bubble_run. fold n.
  destruct (decide (n ≤ 1)) as [Hsmall|Hbig].
  { rewrite for_loop_break_empty by lia. simpl.
    split; [apply sim_ok_start|]. split; [lia|].
    intros k Hk. fold n in Hk. lia. }
  apply (for_loop_break_rule
    (fun i sm => sim_ok arr sm ∧
                 2 * length (steps sm) + i * i + i ≤ 2 * i * n ∧
                 tail_settled n i (array sm))
    (fun sm => sim_ok arr sm ∧
               2 * length (steps sm) ≤ n * (n - 1) ∧
               adjacent_ordered (array sm))).
  - lia.
  - split; [apply sim_ok_start|]. split; [simpl; lia|].
    intros p q Hpq Hq Hqn. lia.
  - intros i sm Hi (Hs & Hlen & Ht).
    pose proof (bubble_inner_loop i sm Hs ltac:(lia) Ht) as Hpass.
    unfold bubble_pass.
    destruct (for_loop 0 (n - i - 1) (bubble_compare i) (sm, false))
      as [sm' swapped]; simpl in Hpass.
    destruct Hpass as (Hs' & Hlen' & Ht' & Hmax & Hflag).
    pose proof (ok_length _ _ Hs') as Hn. fold n in Hn.
    destruct swapped; simpl.
    + split; [done|]. split; [nia|].
      intros p q Hpq Hq Hqn.
      destruct (decide (q = n - i - 1)) as [->|].
      * apply Hmax. lia.
      * apply Ht'; lia.
    + split; [done|]. split; [nia|].
      intros k Hk. rewrite Hn in Hk.
      destruct (decide (k + 1 ≤ n - i - 1)).
      * by apply Hflag.
      * apply Ht'; lia.
  - intros sm (Hs & Hlen & Ht). split; [done|]. split; [nia|].
    pose proof (ok_length _ _ Hs) as Hn. fold n in Hn.
    intros k Hk. rewrite Hn in Hk. apply Ht; lia.
Qed.
End Bubble.

(** ** Selection sort *)

Section Selection.
Variable arr : list Z.
Let n := length arr.

(** The search returns the first position of a least cell of the suffix. *)
Lemma selection_min_index_spec (a : list Z) i :
  length a = n → i < n →
  let m := selection_min_index a n i in
  i ≤ m < n ∧
  (∀ k, i ≤ k < n → (a !!! m ≤ a !!! k)%Z) ∧
  (∀ k, i ≤ k < m → (a !!! m < a !!! k)%Z).
Proof.
  intros Hn Hi. unfold selection_min_index.
  apply (for_loop_rule (fun j m =>
    i ≤ m < j ∧
    (∀ k, i ≤ k < j → (a !!! m ≤ a !!! k)%Z) ∧
    (∀ k, i ≤ k < m → (a !!! m < a !!! k)%Z))).
  - lia.
  - split; [lia|]. split; intros k Hk; [|lia].
    replace k with i by lia. lia.
  - intros j m Hj (Hm & Hmin & Hfirst). unfold selection_scan.
    rewrite (read_in_range a j), (read_in_range a m) by lia.
    destruct (Z.ltb_spec (a !!! j) (a !!! m)) as [Hlt|Hge].
    + split; [lia|]. split; intros k Hk.
      * destruct (decide (k = j)) as [->|]; [lia|].
        specialize (Hmin k). lia.
      * specialize (Hmin k). lia.
    + split; [lia|]. split; [|done]. intros k Hk.
      destruct (decide (k = j)) as [->|]; [lia|].
      apply Hmin. lia.
Qed.

Lemma selection_run_spec :
  sim_ok arr (selection_run arr) ∧
  length (steps (selection_run arr)) ≤ n - 1 ∧
  adjacent_ordered (array (selection_run arr)).
Proof.
  unfold selection_run. fold n.
  cut (let sm := for_loop 0 (n - 1) (selection_place n)
                   {| array := arr; steps := [] |} in
       sim_ok arr sm ∧ length (steps sm) ≤ n - 1 ∧ head_settled (n - 1) (array sm)).
  { simpl. intros (Hs & Hlen & Hh). split; [done|]. split; [done|].
    pose proof (ok_length _ _ Hs) as Hn. fold n in Hn.
    intros k Hk. apply Hh; lia. }
  apply (for_loop_rule (fun i sm =>
    sim_ok arr sm ∧ length (steps sm) ≤ i ∧ head_settled i (array sm))).
  - lia.
  - split; [apply sim_ok_start|]. split; [simpl; lia|].
    intros p q Hp. lia.
  - intros i sm Hi (Hs & Hlen & Hh).
    pose proof (ok_length _ _ Hs) as Hn. fold n in Hn.
    pose proof (selection_min_index_spec (array sm) i Hn ltac:(lia))
      as (Hm & Hmin & Hfirst).
    unfold selection_place.
    set (m := selection_min_index (array sm) n i) in *.
    destruct (decide (m ≠ i)) as [Hmi|Hmi].
    + rewrite (read_in_range (array sm) i), (read_in_range (array sm) m) by lia.
      split; [apply sim_ok_record_swap; auto; try lia; apply Hfirst; lia|].
      split; [simpl; rewrite length_app; simpl; lia|].
      intros p q Hp Hpq Hq. simpl in *. rewrite swap_cells_length in Hq.
      swap_reads; subst; try (apply Hh; lia); try (apply Hmin; lia).
    + assert (m = i) as Hmi' by lia.
      split; [done|]. split; [lia|].
      intros p q Hp Hpq Hq.
      destruct (decide (p = i)) as [->|].
      * rewrite <- Hmi'. apply Hmin. lia.
      * apply Hh; lia.
Qed.
End Selection.

(** ** Insertion sort *)

Section Insertion.
Variable arr : list Z.
Let n := length arr.

(** The inner loop: the cell at [j] moves left until the first [i + 1]
    cells are in order. *)
Lemma insertion_shift_spec i j sm :
  sim_ok arr sm → j ≤ i → i < n → ordered_around i j (array sm) →
  let sm' := insertion_shift i j sm in
  sim_ok arr sm' ∧
  length (steps sm') ≤ length (steps sm) + j ∧
  (∀ k, k + 1 ≤ i → (array sm' !!! k ≤ array sm' !!! (k + 1)%nat)%Z).
Proof.
  revert sm. induction j as [|j IH]; intros sm Hs Hji Hi [Hord Hgap]; simpl.
  - split; [done|]. split; [lia|]. intros k Hk. apply Hord; lia.
  - pose proof (ok_length _ _ Hs) as Hn. fold n in Hn.
    rewrite (read_in_range (array sm) j),
            (read_in_range (array sm) (Datatypes.S j)) by lia.
    destruct (Z.gtb_spec (array sm !!! j) (array sm !!! Datatypes.S j))
      as [Hgt|Hle].
    + match goal with |- context [insertion_shift i j ?s] => set (sm1 := s) end.
      assert (sim_ok arr sm1) as Hs1.
      { apply sim_ok_record_swap; auto; try lia.
        simpl. f_equal. lia. }
      assert (ordered_around i j (array sm1)) as Hord1.
      { subst sm1; simpl. split.
        - intros k Hk Hkj.
          destruct (decide (k = Datatypes.S j)) as [->|].
          + specialize (Hgap ltac:(lia) ltac:(lia)).
            replace (Datatypes.S j - 1) with j in Hgap by lia.
            swap_reads.
          + specialize (Hord k). swap_reads.
        - intros Hj0 Hji'. specialize (Hord (j - 1)).
          replace (j - 1 + 1) with j in * by lia.
          swap_reads. }
      destruct (IH sm1 Hs1 ltac:(lia) Hi Hord1) as (Hs' & Hlen' & Hfin).
      split; [done|]. split; [|done].
      subst sm1; simpl in Hlen'. rewrite length_app in Hlen'. simpl in Hlen'. lia.
    + split; [done|]. split; [lia|]. intros k Hk.
      destruct (decide (k + 1 = Datatypes.S j)) as [Hkj|Hkj].
      * replace (k + 1) with (Datatypes.S j) by lia.
        replace k with j by lia. done.
      * apply Hord; lia.
Qed.

Lemma insertion_run_spec :
  sim_ok arr (insertion_run arr) ∧
  2 * length (steps (insertion_run arr)) ≤ n * (n - 1) ∧
  adjacent_ordered (array (insertion_run arr)).
Proof.
  unfold insertion_run. fold n.
  destruct (decide (n = 0)) as [Hz|Hnz].
  { rewrite for_loop_empty by lia. simpl.
    split; [apply sim_ok_start|]. split; [lia|].
    intros k Hk. fold n in Hk. lia. }
  cut (let sm := for_loop 1 n (fun i sm => insertion_shift i i sm)
                   {| array := arr; steps := [] |} in
       sim_ok arr sm ∧ 2 * length (steps sm) + n ≤ n * n ∧
       (∀ k, k + 1 < n → (array sm !!! k ≤ array sm !!! (k + 1)%nat)%Z)).
  { simpl. intros (Hs & Hlen & Hh). split; [done|]. split; [nia|].
    intros k Hk. rewrite (ok_length _ _ Hs) in Hk. by apply Hh. }
  apply (for_loop_rule (fun i sm =>
    sim_ok arr sm ∧ 2 * length (steps sm) + i ≤ i * i ∧
    (∀ k, k + 1 < i → (array sm !!! k ≤ array sm !!! (k + 1)%nat)%Z))).
  - lia.
  - split; [apply sim_ok_start|]. split; [simpl; lia|]. intros; lia.
  - intros i sm Hi (Hs & Hlen & Hpre).
    assert (ordered_around i i (array sm)) as Hord.
    { split; [|lia]. intros k Hk Hki. apply Hpre. lia. }
    destruct (insertion_shift_spec i i sm Hs ltac:(lia) ltac:(lia) Hord)
      as (Hs' & Hlen' & Hfin).
    split; [done|]. split; [nia|]. intros k Hk. apply Hfin. lia.
Qed.
End Insertion.

(** ** Empty plans *)

(** A run that ends in order recorded no step exactly when the input was
    in order already. *)
Lemma plan_empty_iff (arr : list Z) (sm : Sim) :
  sim_ok arr sm → adjacent_ordered (array sm) →
  steps sm = [] ↔ adjacent_ordered arr.
Proof.
  intros [Hlen Hrep Htr] Hsorted. split.
  - intros Hnil. rewrite Hnil in Hrep. simpl in Hrep. by rewrite Hrep.
  - intros Harr. destruct (steps sm) as [|st rest] eqn:Hst; [done|].
    destruct (Htr 0 st eq_refl) as (_ & Hij & Hi & Hj & Hinv). simpl in *.
    apply read_total in Hi as [Hi1 Hi2]. apply read_total in Hj as [Hj1 Hj2].
    pose proof (adjacent_ordered_le arr (indices st).1 (indices st).2 Harr
                  ltac:(lia) Hj1).
    lia.
Qed.

(** ** The plans of the three generators *)

Section GeneratedPlans.
Variable arr : list Z.

Lemma bubble_run_ok : run_ok arr (bubble_run arr).
Proof. destruct (bubble_run_spec arr) as (? & _ & ?). by split. Qed.

Lemma selection_run_ok : run_ok arr (selection_run arr).
Proof. destruct (selection_run_spec arr) as (? & _ & ?). by split. Qed.

Lemma insertion_run_ok : run_ok arr (insertion_run arr).
Proof. destruct (insertion_run_spec arr) as (? & _ & ?). by split. Qed.

Lemma run_ok_sorts sm : run_ok arr sm → nondecreasing_seq (apply_plan arr (steps sm)).
Proof.
  intros [Hs Hord]. rewrite (ok_replay _ _ Hs).
  by apply adjacent_ordered_Sorted.
Qed.

Lemma run_ok_empty sm : run_ok arr sm → steps sm = [] ↔ nondecreasing_seq arr.
Proof.
  intros [Hs Hord]. unfold nondecreasing_seq.
  rewrite <- adjacent_ordered_Sorted. by apply plan_empty_iff.
Qed.

(** A supported key selects one of the three runs. *)
Lemma generateStepsForAlgorithm_returned algorithmKey plan :
  generateStepsForAlgorithm algorithmKey arr = Returned plan →
  algorithmKey ∈ (Some <$> ALGORITHMS_keys) ∧
  ∃ sm, run_ok arr sm ∧ plan = steps sm.
Proof.
  unfold generateStepsForAlgorithm, is_case.
  repeat case_bool_decide; intros Hret; simplify_eq.
  - split; [set_solver|]. eexists; split; [apply bubble_run_ok | done].
  - split; [set_solver|]. eexists; split; [apply selection_run_ok | done].
  - split; [set_solver|]. eexists; split; [apply insertion_run_ok | done].
Qed.

Lemma generateStepsForAlgorithm_supported algorithmKey :
  algorithmKey ∈ ALGORITHMS_keys →
  ∃ plan, generateStepsForAlgorithm (Some algorithmKey) arr = Returned plan.
Proof.
  intros Hkey. unfold generateStepsForAlgorithm, is_case.
  repeat case_bool_decide; eauto.
  apply list_elem_of_In in Hkey. simpl in Hkey.
  exfalso. intuition congruence.
Qed.
End GeneratedPlans.

(** The minimum is in place at every boundary exactly when every search of
    the selection sort, run on the input, returns its boundary. *)
Lemma suffix_minima_in_place_search (a : list Z) :
  suffix_minima_in_place a ↔
  ∀ i, i + 1 < length a → selection_min_index a (length a) i = i.
Proof.
  split.
  - intros H i Hi.
    destruct (selection_min_index_spec a a i eq_refl ltac:(lia))
      as (Hm & _ & Hfirst).
    destruct (decide (selection_min_index a (length a) i = i)) as [|Hne];
      [done|].
    specialize (Hfirst i ltac:(lia)). specialize (H i Hi _ (proj1 Hm) (proj2 Hm)).
    lia.
  - intros H i Hi j Hij Hj.
    destruct (selection_min_index_spec a a i eq_refl ltac:(lia))
      as (_ & Hmin & _).
    rewrite (H i Hi) in Hmin. apply Hmin. lia.
Qed.

Lemma suffix_minima_in_place_iff (a : list Z) :
  suffix_minima_in_place a ↔ nondecreasing_seq a.
Proof.
  unfold nondecreasing_seq. rewrite <- adjacent_ordered_Sorted. split.
  - intros H k Hk. apply H; lia.
  - intros H i Hi j Hij Hj. by apply adjacent_ordered_le.
Qed.

(** C1: for each of the three supported algorithm identifiers and every
    input sequence of at least two numbers (repeated values allowed),
    [generateStepsForAlgorithm] returns a plan, and applying the swaps of
    that plan, in order, to the input yields a non-decreasing sequence. *)
Theorem generated_plan_sorts (algorithmKey : string) (arr : list Z) :
  algorithmKey ∈ ALGORITHMS_keys →
  2 ≤ length arr →
  ∃ plan,
    generateStepsForAlgorithm (Some algorithmKey) arr = Returned plan ∧
    nondecreasing_seq (apply_plan arr plan).
Proof.
  intros Hkey _.
  destruct (generateStepsForAlgorithm_supported arr _ Hkey) as [plan Hplan].
  exists plan. split; [done|].
  apply generateStepsForAlgorithm_returned in Hplan as (_ & sm & Hrun & ->).
  by apply run_ok_sorts.
Qed.

Lemma generated_plan_sorts_witness :
  ∃ plan,
    generateStepsForAlgorithm (Some "insertion") [4; 1; 3; 1]%Z = Returned plan ∧
    nondecreasing_seq (apply_plan [4; 1; 3; 1]%Z plan).
Proof.
  apply (generated_plan_sorts "insertion" [4; 1; 3; 1]%Z).
  - apply list_elem_of_In. simpl. tauto.
  - simpl. lia.
Defined.

(** C5: the bubble plan and the insertion plan are empty exactly when the
    input is already non-decreasing; the selection plan is empty exactly
    when at every boundary position the minimum of the suffix is already
    at the boundary (every search for the minimum returns its boundary),
    which is the same as the input being non-decreasing, for distinct
    values and for repeated ones too. *)
Theorem empty_plan_iff_sorted (arr : list Z) :
  (generateBubbleSortSteps arr = [] ↔ nondecreasing_seq arr) ∧
  (generateInsertionSortSteps arr = [] ↔ nondecreasing_seq arr) ∧
  (generateSelectionSortSteps arr = [] ↔ suffix_minima_in_place arr) ∧
  (suffix_minima_in_place arr ↔
   ∀ i, i + 1 < length arr → selection_min_index arr (length arr) i = i) ∧
  (suffix_minima_in_place arr ↔ nondecreasing_seq arr).
Proof.
  split; [apply run_ok_empty, bubble_run_ok|].
  split; [apply run_ok_empty, insertion_run_ok|].
  split; [|split; [apply suffix_minima_in_place_search
                  |apply suffix_minima_in_place_iff]].
  rewrite suffix_minima_in_place_iff. apply run_ok_empty, selection_run_ok.
Qed.

(** C6: on an input of length n the bubble plan has at most n(n-1)/2
    steps, the selection plan at most n-1 steps (none when n is 0) and the
    insertion plan at most n(n-1)/2 steps. *)
Theorem plan_length_bounds (arr : list Z) :
  let n := length arr in
  length (generateBubbleSortSteps arr) ≤ n * (n - 1) / 2 ∧
  length (generateSelectionSortSteps arr) ≤ n - 1 ∧
  length (generateInsertionSortSteps arr) ≤ n * (n - 1) / 2.
Proof.
  intros n.
  destruct (bubble_run_spec arr) as (_ & Hb & _).
  destruct (selection_run_spec arr) as (_ & Hs & _).
  destruct (insertion_run_spec arr) as (_ & Hi & _).
  fold n in Hb, Hs, Hi.
  unfold generateBubbleSortSteps, generateSelectionSortSteps,
    generateInsertionSortSteps.
  split; [|split; [done|]]; apply Nat.div_le_lower_bound; lia.
Qed.

(** The selection bound over the integers, for a non-empty input. *)
Lemma selection_plan_length_Z (arr : list Z) :
  arr ≠ [] →
  (Z.of_nat (length (generateSelectionSortSteps arr)) ≤ Z.of_nat (length arr) - 1)%Z.
Proof.
  intros Hne. destruct (selection_run_spec arr) as (_ & Hs & _).
  unfold generateSelectionSortSteps. destruct arr; [done|]. simpl in *. lia.
Qed.

(** ** Move validation *)

Lemma validateMove_true (st : Step) (a b : Z) :
  validateMove (Some st) a b = true ↔
  (a = Z.of_nat (indices st).1 ∧ b = Z.of_nat (indices st).2) ∨
  (a = Z.of_nat (indices st).2 ∧ b = Z.of_nat (indices st).1).
Proof.
  unfold validateMove. destruct (indices st) as [i j]; simpl.
  rewrite orb_true_iff, !andb_true_iff, !bool_decide_eq_true. done.
Qed.

Lemma unordered_pair_eq (a b i j : Z) :
  unordered_pair a b = unordered_pair i j ↔ (a = i ∧ b = j) ∨ (a = j ∧ b = i).
Proof.
  unfold unordered_pair. split.
  - intros H. set_unfold in H.
    pose proof (H a) as Ha. pose proof (H b) as Hb.
    pose proof (H i) as Hi. pose proof (H j) as Hj.
    simpl in *. lia.
  - intros [[-> ->]|[-> ->]]; [done|]. set_unfold. intros x. lia.
Qed.

(** C8: [validateMove] does not depend on the order of the two indices;
    on a step it is true exactly when the unordered pair of the indices is
    the step's pair of positions; on a null or absent step it is false. *)
Theorem validateMove_spec (expectedStep : option Step) (st : Step) (a b : Z) :
  validateMove expectedStep a b = validateMove expectedStep b a ∧
  (validateMove (Some st) a b = true ↔
   unordered_pair a b =
   unordered_pair (Z.of_nat (indices st).1) (Z.of_nat (indices st).2)) ∧
  validateMove None a b = false.
Proof.
  split; [|split; [|done]].
  - destruct expectedStep as [st'|]; [|done].
    apply eq_true_iff_eq. rewrite !validateMove_true. tauto.
  - by rewrite validateMove_true, unordered_pair_eq.
Qed.

(** ** A worked game *)

(** C4: bubble sort on [5,3,4].  The plan is the swap of positions (0,1)
    with values (5,3), then the swap of positions (1,2) with values (5,4).
    In a session on that plan, the attempt (0,1) succeeds and leaves
    [3,5,4] with the cursor at 1; the attempt (0,2) is then rejected as
    incorrect, with expected indices [1,2], and changes neither the
    sequence nor the cursor; the attempt (1,2) then succeeds, leaves
    [3,4,5] with the cursor at 2, the length of the plan, and completes
    the game. *)
Theorem bubble_scenario (t0 t1 t2 t3 : Z) :
  let plan := generateBubbleSortSteps [5; 3; 4]%Z in
  let g := started_on bubble [5; 3; 4]%Z plan t0 in
  generateStepsForAlgorithm (Some "bubble") [5; 3; 4]%Z = Returned plan ∧
  step_core <$> plan =
    [ (SWAP, (0, 1), (5, 3)%Z); (SWAP, (1, 2), (5, 4)%Z) ] ∧
  ∃ r1 g1 r2 g2 r3 g3,
    attemptSwap 0 1 t1 g = Return r1 g1 ∧
    res_success r1 = true ∧ res_correct r1 = Some true ∧
    numbers g1 = [3; 5; 4]%Z ∧ currentStepIndex g1 = 1 ∧
    state g1 = PLAYING ∧
    attemptSwap 0 2 t2 g1 = Return r2 g2 ∧
    res_success r2 = false ∧ res_correct r2 = Some false ∧
    res_expectedIndices r2 = Some (1, 2) ∧
    numbers g2 = numbers g1 ∧ currentStepIndex g2 = currentStepIndex g1 ∧
    state g2 = PLAYING ∧
    attemptSwap 1 2 t3 g2 = Return r3 g3 ∧
    res_success r3 = true ∧ res_correct r3 = Some true ∧
    res_completed r3 = Some true ∧
    numbers g3 = [3; 4; 5]%Z ∧ currentStepIndex g3 = 2 ∧
    currentStepIndex g3 = length plan ∧ state g3 = COMPLETED.
Proof.
  intros plan g.
  split; [reflexivity|]. split; [reflexivity|].
  do 6 eexists.
  split; [vm_compute; reflexivity|].
  do 5 (split; [reflexivity|]).
  split; [vm_compute; reflexivity|].
  do 6 (split; [reflexivity|]).
  split; [vm_compute; reflexivity|].
  repeat split.
Qed.

(** ** Random sequences *)

Section RandomNumbers.
Implicit Types (a arr numbers : list Z) (draws rest : list nat).

Lemma NoDup_read a u v :
  NoDup a → u < length a → v < length a → a !!! u = a !!! v → u = v.
Proof.
  intros Hnd Hu Hv Heq.
  apply (proj1 (NoDup_alt a) Hnd u v (a !!! u)).
  - by apply read_in_range.
  - rewrite Heq. by apply read_in_range.
Qed.

(** Two cells trading places keep the cells distinct. *)
Lemma swap_cells_NoDup a i j :
  i < length a → j < length a → NoDup a →
  NoDup (swap_cells a i j (a !!! i) (a !!! j)).
Proof.
  intros Hi Hj Hnd. apply NoDup_alt. intros p q x Hp Hq.
  apply read_total in Hp as [Hp1 Hp2]. apply read_total in Hq as [Hq1 Hq2].
  rewrite swap_cells_length in Hp1, Hq1.
  rewrite <- Hq2 in Hp2. rewrite !swap_cells_read in Hp2 by done.
  repeat case_decide; subst; try done;
    apply NoDup_read in Hp2; auto; lia.
Qed.

Lemma swap_cells_Forall (P : Z → Prop) a i j x y :
  Forall P a → P x → P y → Forall P (swap_cells a i j x y).
Proof. intros. unfold swap_cells. by repeat apply Forall_insert. Qed.

Lemma every_from_true {A : Type} (f : A → nat → bool) idx (l : list A) :
  every_from f idx l = true ↔ ∀ m x, l !! m = Some x → f x (idx + m) = true.
Proof.
  revert idx. induction l as [|v l IH]; intros idx; simpl.
  - split; [|done]. intros _ m x H. by rewrite lookup_nil in H.
  - rewrite andb_true_iff, IH. split.
    + intros [Hv Hl] [|m] x Hm; simpl in Hm.
      * injection Hm as <-. by rewrite Nat.add_0_r.
      * replace (idx + Datatypes.S m) with (Datatypes.S idx + m) by lia. eauto.
    + intros H. split.
      * specialize (H 0 v eq_refl). by rewrite Nat.add_0_r in H.
      * intros m x Hm. specialize (H (Datatypes.S m) x Hm).
        by replace (idx + Datatypes.S m) with (Datatypes.S idx + m) in H by lia.
Qed.

(** The engine's sortedness test decides the order of the sequence. *)
Lemma nondecreasing_true arr :
  nondecreasing arr = true ↔ nondecreasing_seq arr.
Proof.
  unfold nondecreasing, nondecreasing_seq.
  rewrite <- adjacent_ordered_Sorted, every_from_true. split.
  - intros H k Hk.
    specialize (H (k + 1) (arr !!! (k + 1)) (read_in_range _ _ Hk)).
    simpl in H. apply orb_true_iff in H as [H|H].
    + apply bool_decide_eq_true in H. lia.
    + replace (k + 1 - 1) with k in H by lia.
      rewrite (read_in_range arr k) in H by lia. lia.
  - intros H m x Hm. apply read_total in Hm as [Hm <-]. simpl.
    apply orb_true_iff. destruct m as [|k]; [left; by apply bool_decide_eq_true|].
    right. replace (Datatypes.S k - 1) with k by lia.
    rewrite (read_in_range arr k) by lia.
    specialize (H k). replace (k + 1) with (Datatypes.S k) in H by lia. lia.
Qed.

Lemma set_add_spec v numbers :
  NoDup numbers →
  NoDup (set_add v numbers) ∧ length (set_add v numbers) ≤ length numbers + 1.
Proof.
  intros Hnd. unfold set_add. case_decide.
  - split; [done | lia].
  - split; [|rewrite length_app; simpl; lia].
    apply NoDup_app. split; [done|]. split; [|apply NoDup_singleton].
    intros x Hx Hx'. apply list_elem_of_singleton in Hx'. by subst.
Qed.

Lemma set_add_Forall (P : Z → Prop) v numbers :
  Forall P numbers → P v → Forall P (set_add v numbers).
Proof.
  intros. unfold set_add. case_decide; [done|].
  apply Forall_app. split; [done|]. by apply Forall_singleton.
Qed.

Lemma fill_numbers_spec numCount numbers draws arr rest :
  fill_numbers numCount 1 20 numbers draws = Got arr rest →
  NoDup numbers → length numbers ≤ numCount →
  Forall (λ v, 1 ≤ v ≤ 20)%Z numbers →
  NoDup arr ∧ length arr = numCount ∧ Forall (λ v, 1 ≤ v ≤ 20)%Z arr.
Proof.
  revert numbers. induction draws as [|d draws IH]; intros numbers; simpl.
  - case_decide; [done|]. intros [= <- <-] ???. split; [done|]. split; [lia|done].
  - case_decide.
    + intros Hfill Hnd Hlen Hall.
      destruct (set_add_spec (Z.of_nat d `mod` (20 - 1 + 1) + 1) numbers Hnd)
        as [Hnd' Hlen'].
      apply (IH _ Hfill Hnd'); [lia|].
      apply set_add_Forall; [done|].
      pose proof (Z.mod_pos_bound (Z.of_nat d) (20 - 1 + 1)). lia.
    + intros [= <- <-] ???. split; [done|]. split; [lia|done].
Qed.

Lemma shuffle_step i arr d draws :
  shuffle (Datatypes.S i) arr (d :: draws) =
  match arr !! Datatypes.S i, arr !! random_below (Datatypes.S i + 1) d with
  | Some x, Some y =>
      shuffle i (swap_cells arr (Datatypes.S i)
                   (random_below (Datatypes.S i + 1) d) x y) draws
  | _, _ => UndefinedCell
  end.
Proof. reflexivity. Qed.

Lemma shuffle_spec i arr draws arr' rest :
  shuffle i arr draws = Got arr' rest →
  i < length arr → NoDup arr → Forall (λ v, 1 ≤ v ≤ 20)%Z arr →
  NoDup arr' ∧ length arr' = length arr ∧ Forall (λ v, 1 ≤ v ≤ 20)%Z arr'.
Proof.
  revert arr draws. induction i as [|i IH]; intros arr draws.
  - simpl. intros [= <- <-]. done.
  - destruct draws as [|d draws]; [done|].
    rewrite shuffle_step.
    intros Hsh Hi Hnd Hall.
    set (j := random_below (Datatypes.S i + 1) d) in *.
    assert (j < length arr) as Hj.
    { subst j. unfold random_below.
      pose proof (Nat.mod_upper_bound d (Datatypes.S i + 1)). lia. }
    rewrite (read_in_range arr (Datatypes.S i)), (read_in_range arr j)
      in Hsh by done.
    apply IH in Hsh as (? & Hlen & ?).
    + rewrite swap_cells_length in Hlen. done.
    + rewrite swap_cells_length. lia.
    + by apply swap_cells_NoDup.
    + apply swap_cells_Forall; [done | |].
      * apply (proj1 (Forall_lookup _ arr) Hall (Datatypes.S i)).
        by apply read_in_range.
      * apply (proj1 (Forall_lookup _ arr) Hall j).
        by apply read_in_range.
Qed.

(** The sequence of a new game: five to seven distinct values between 1
    and 20, not in order. *)
Lemma generateRandomNumbers_spec draws arr rest :
  generateRandomNumbers None 1 20 draws = Got arr rest → fresh_sequence arr.
Proof.
  unfold generateRandomNumbers.
  destruct draws as [|d draws]; [done|].
  destruct (fill_numbers (random_below 3 d + 5) 1 20 [] draws)
    as [a1 draws1| |] eqn:Hfill; [|done|done].
  apply fill_numbers_spec in Hfill as (Hnd1 & Hlen1 & Hall1);
    [|apply NoDup_nil_2 | simpl; lia | done].
  assert (5 ≤ length a1 ≤ 7) as Hlen.
  { unfold random_below in Hlen1. pose proof (Nat.mod_upper_bound d 3). lia. }
  destruct (shuffle (length a1 - 1) a1 draws1) as [a2 draws2| |] eqn:Hsh;
    [|done|done].
  apply shuffle_spec in Hsh as (Hnd2 & Hlen2 & Hall2); [|lia|done|done].
  destruct (nondecreasing a2) eqn:Hsorted.
  - apply nondecreasing_true in Hsorted.
    rewrite (read_in_range a2 0), (read_in_range a2 1) by lia.
    intros [= <- <-]. unfold fresh_sequence.
    rewrite swap_cells_length.
    split; [lia|]. split; [lia|].
    split; [apply swap_cells_NoDup; auto; lia|].
    split.
    { apply swap_cells_Forall; [done | |].
      - apply (proj1 (Forall_lookup _ a2) Hall2 0). apply read_in_range. lia.
      - apply (proj1 (Forall_lookup _ a2) Hall2 1). apply read_in_range. lia. }
    unfold nondecreasing_seq in *. rewrite <- adjacent_ordered_Sorted in *.
    intros Hswapped.
    specialize (Hswapped 0). rewrite swap_cells_length in Hswapped.
    specialize (Hswapped ltac:(lia)). specialize (Hsorted 0 ltac:(lia)).
    simpl in Hswapped, Hsorted.
    rewrite !swap_cells_read in Hswapped by lia. simpl in Hswapped.
    assert (a2 !!! 0 = a2 !!! 1) as Heq by lia.
    apply NoDup_read in Heq; [lia | done | lia | lia].
  - intros [= <- <-]. unfold fresh_sequence.
    split; [lia|]. split; [lia|]. split; [done|]. split; [done|].
    rewrite <- nondecreasing_true. by rewrite Hsorted.
Qed.

(** *** The generator finishes *)

Lemma fill_numbers_full numCount min max numbers draws :
  ¬ length numbers < numCount →
  fill_numbers numCount min max numbers draws = Got numbers draws.
Proof. intros H. destruct draws; simpl; by case_decide. Qed.

Lemma fill_numbers_draw numCount min max numbers d draws :
  length numbers < numCount →
  fill_numbers numCount min max numbers (d :: draws) =
  fill_numbers numCount min max
    (set_add (Z.of_nat d `mod` (max - min + 1) + min)%Z numbers) draws.
Proof. intros H. simpl. by case_decide. Qed.

Lemma set_add_elem v numbers x :
  x ∈ set_add v numbers ↔ x = v ∨ x ∈ numbers.
Proof.
  unfold set_add. case_decide.
  - split; [auto|]. intros [->|]; done.
  - rewrite elem_of_app, list_elem_of_singleton. tauto.
Qed.

(** Twenty distinct values cannot all be new to a set that is short of
    its size: once the values 1 to 20 were all offered, the loop is over. *)
Lemma fill_numbers_sweep numCount numbers k more :
  numCount ≤ 20 → k ≤ 20 → NoDup numbers →
  (∀ v, (1 ≤ v ≤ Z.of_nat k)%Z → v ∈ numbers) →
  ∃ arr rest,
    fill_numbers numCount 1 20 numbers (seq k (20 - k) ++ more) =
    Got arr (rest ++ more).
Proof.
  intros Hcount. remember (20 - k) as m eqn:Hm.
  revert k numbers Hm. induction m as [|m IH]; intros k numbers Hm Hk Hnd Hall.
  - exists numbers, []. simpl. apply fill_numbers_full.
    assert (NoDup (Z.of_nat <$> seq 1 20)) as Hnd20.
    { apply NoDup_fmap; [apply _ | apply NoDup_seq]. }
    assert (length (Z.of_nat <$> seq 1 20) ≤ length numbers) as Hlen.
    { apply submseteq_length, NoDup_submseteq; [done|].
      intros x Hx. apply list_elem_of_fmap in Hx as (i & -> & Hi).
      apply elem_of_seq in Hi. apply Hall. lia. }
    rewrite length_fmap, length_seq in Hlen. lia.
  - change (seq k (Datatypes.S m) ++ more)
      with (k :: seq (Datatypes.S k) m ++ more).
    destruct (decide (length numbers < numCount)) as [Hlt|Hge].
    + rewrite fill_numbers_draw by done.
      replace (Z.of_nat k `mod` (20 - 1 + 1) + 1)%Z with (Z.of_nat (k + 1))
        by (rewrite Z.mod_small; lia).
      replace (Datatypes.S k) with (k + 1) by lia.
      apply IH; [lia | lia | by apply set_add_spec |].
      intros v Hv. apply set_add_elem.
      destruct (decide (v = Z.of_nat (k + 1))); [by left|].
      right. apply Hall. lia.
    + exists numbers, (k :: seq (Datatypes.S k) m).
      by apply fill_numbers_full.
Qed.

Lemma fill_numbers_completes numCount numbers draws more :
  numCount ≤ 20 → NoDup numbers →
  ∃ arr rest,
    fill_numbers numCount 1 20 numbers (draws ++ seq 0 20 ++ more) =
    Got arr (rest ++ more).
Proof.
  intros Hcount. revert numbers.
  induction draws as [|d draws IH]; intros numbers Hnd.
  - apply (fill_numbers_sweep numCount numbers 0 more); auto; lia.
  - destruct (decide (length numbers < numCount)) as [Hlt|Hge].
    + simpl app. rewrite fill_numbers_draw by done.
      apply IH. by apply set_add_spec.
    + exists numbers, ((d :: draws) ++ seq 0 20).
      rewrite <- !app_assoc. by apply fill_numbers_full.
Qed.

Lemma shuffle_completes i arr draws :
  i < length arr → i ≤ length draws →
  ∃ arr' rest, shuffle i arr draws = Got arr' rest.
Proof.
  revert arr draws. induction i as [|i IH]; intros arr draws Hi Hd.
  - simpl. eauto.
  - destruct draws as [|d draws]; simpl in Hd; [lia|].
    rewrite shuffle_step.
    set (j := random_below (Datatypes.S i + 1) d).
    assert (j < length arr) as Hj.
    { subst j. unfold random_below.
      pose proof (Nat.mod_upper_bound d (Datatypes.S i + 1)). lia. }
    rewrite (read_in_range arr (Datatypes.S i)), (read_in_range arr j) by done.
    apply IH; [rewrite swap_cells_length|]; lia.
Qed.

(** Whatever was drawn so far, the generator returns once the draws go on
    with [completing_draws]. *)
Lemma generateRandomNumbers_completes draws :
  ∃ arr rest,
    generateRandomNumbers None 1 20 (draws ++ completing_draws) = Got arr rest.
Proof.
  assert (∀ numCount draws1, 5 ≤ numCount ≤ 7 →
    ∃ arr rest,
      match fill_numbers numCount 1 20 [] (draws1 ++ seq 0 20 ++ replicate 6 0) with
      | Got arr draws2 =>
          match shuffle (length arr - 1) arr draws2 with
          | Got arr' draws3 =>
              if nondecreasing arr' then
                match arr' !! 0, arr' !! 1 with
                | Some x, Some y => Got (swap_cells arr' 0 1 x y) draws3
                | _, _ => UndefinedCell
                end
              else Got arr' draws3
          | NoMoreDraws => NoMoreDraws
          | UndefinedCell => UndefinedCell
          end
      | NoMoreDraws => NoMoreDraws
      | UndefinedCell => UndefinedCell
      end = Got arr rest) as Hrest.
  { intros numCount draws1 Hcount.
    destruct (fill_numbers_completes numCount [] draws1 (replicate 6 0)
                ltac:(lia) (NoDup_nil_2)) as (a1 & rest1 & Hfill).
    rewrite Hfill.
    apply fill_numbers_spec in Hfill as (Hnd1 & Hlen1 & Hall1);
      [|apply NoDup_nil_2 | simpl; lia | done].
    destruct (shuffle_completes (length a1 - 1) a1 (rest1 ++ replicate 6 0))
      as (a2 & rest2 & Hsh); [lia | rewrite length_app, length_replicate; lia|].
    rewrite Hsh.
    apply shuffle_spec in Hsh as (_ & Hlen2 & _); [|lia|done|done].
    destruct (nondecreasing a2); [|eauto].
    rewrite (read_in_range a2 0), (read_in_range a2 1) by lia. eauto. }
  unfold generateRandomNumbers, completing_draws.
  destruct draws as [|d draws].
  - apply (Hrest (random_below 3 0 + 5) []). unfold random_below. simpl. lia.
  - replace ((d :: draws) ++ 0 :: seq 0 20 ++ replicate 6 0)
      with (d :: (draws ++ [0]) ++ seq 0 20 ++ replicate 6 0)
      by (simpl; by rewrite <- app_assoc).
    apply Hrest. unfold random_below.
    pose proof (Nat.mod_upper_bound d 3). lia.
Qed.

(** *** The generator stays within the model *)

Lemma fill_numbers_defined numCount min max numbers draws :
  fill_numbers numCount min max numbers draws ≠ UndefinedCell.
Proof.
  revert numbers. induction draws as [|d draws IH]; intros numbers; simpl;
    case_decide; done.
Qed.

Lemma shuffle_defined i arr draws :
  i < length arr → shuffle i arr draws ≠ UndefinedCell.
Proof.
  revert arr draws. induction i as [|i IH]; intros arr draws Hi; [done|].
  destruct draws as [|d draws]; [done|]. rewrite shuffle_step.
  set (j := random_below (Datatypes.S i + 1) d).
  assert (j < length arr) as Hj.
  { subst j. unfold random_below.
    pose proof (Nat.mod_upper_bound d (Datatypes.S i + 1)). lia. }
  rewrite (read_in_range arr (Datatypes.S i)), (read_in_range arr j) by done.
  apply IH. rewrite swap_cells_length. lia.
Qed.

Lemma generateRandomNumbers_defined draws :
  generateRandomNumbers None 1 20 draws ≠ UndefinedCell.
Proof.
  unfold generateRandomNumbers. destruct draws as [|d draws]; [done|].
  destruct (fill_numbers (random_below 3 d + 5) 1 20 [] draws)
    as [a1 draws1| |] eqn:Hfill; [|done|by apply fill_numbers_defined in Hfill].
  apply fill_numbers_spec in Hfill as (Hnd1 & Hlen1 & Hall1);
    [|apply NoDup_nil_2 | simpl; lia | done].
  destruct (shuffle (length a1 - 1) a1 draws1) as [a2 draws2| |] eqn:Hsh;
    [|done|apply shuffle_defined in Hsh; [done|lia]].
  apply shuffle_spec in Hsh as (_ & Hlen2 & _); [|lia|done|done].
  destruct (nondecreasing a2); [|done].
  by rewrite (read_in_range a2 0), (read_in_range a2 1) by lia.
Qed.
End RandomNumbers.

(** ** The session *)

Section Session.
Implicit Types (g : Engine) (now index : Z).

#[local] Arguments validateMove : simpl never.
#[local] Arguments getErrorMessage : simpl never.
#[local] Arguments Algorithms.getNextMoveHint : simpl never.
#[local] Arguments read : simpl never.
#[local] Arguments swap_cells : simpl never.
#[local] Arguments nondecreasing : simpl never.

Lemma read_of_nat (a : list Z) (i : nat) : read a (Z.of_nat i) = a !! i.
Proof.
  unfold read. destruct (Z.ltb_spec (Z.of_nat i) 0); [lia|].
  by rewrite Nat2Z.id.
Qed.

(** [startNewGame] when it returns: a game in the playing state, on a fresh
    sequence, with the plan of one of the three algorithms, which is not
    empty. *)
Lemma startNewGame_returns algorithmKey now draws g info g' :
  startNewGame algorithmKey now draws g = Return info g' →
  ∃ d sm,
    g' = started_on d (numbers g') (steps sm) now ∧
    fresh_sequence (numbers g') ∧
    Some (key d) ∈ (Some <$> ALGORITHMS_keys) ∧
    generateStepsForAlgorithm (Some (key d)) (numbers g') = Returned (steps sm) ∧
    run_ok (numbers g') sm ∧
    steps sm ≠ [] ∧
    info_totalSteps info = length (steps sm).
Proof.
  unfold startNewGame.
  destruct (match recognized algorithmKey with
            | Some r => Got r draws
            | None => selectRandomAlgorithm draws
            end) as [alg draws1| |]; [|done|done].
  destruct (generateRandomNumbers None 1 20 draws1) as [arr rest| |] eqn:Hgen;
    [|done|done].
  apply generateRandomNumbers_spec in Hgen.
  destruct (generateStepsForAlgorithm (ref_key alg) arr) as [queue|msg] eqn:Hq;
    [|done].
  intros [= <- <-]; simpl.
  pose proof Hq as Hq'.
  apply generateStepsForAlgorithm_returned in Hq' as (Hkey & sm & Hrun & ->).
  destruct alg as [d| |]; simpl in *;
    [|exfalso; apply list_elem_of_In in Hkey; simpl in Hkey; intuition discriminate
     |exfalso; apply list_elem_of_In in Hkey; simpl in Hkey; intuition discriminate].
  exists d, sm. split; [reflexivity|]. do 4 (split; [done|]).
  split; [|done].
  intros Hnil. apply (run_ok_empty arr sm Hrun) in Hnil.
  by apply Hgen.
Qed.

(** [startNewGame] when it throws: the engine is idle, on a fresh
    sequence, with an empty queue. *)
Lemma startNewGame_throws algorithmKey now draws g e g' :
  startNewGame algorithmKey now draws g = Throw e g' →
  ∃ alg arr,
    g' = set_originalNumbers arr
           (set_numbers arr (set_currentAlgorithm (Some alg) (reset g))).
Proof.
  unfold startNewGame.
  destruct (match recognized algorithmKey with
            | Some r => Got r draws
            | None => selectRandomAlgorithm draws
            end) as [alg draws1| |]; [|done|done].
  destruct (generateRandomNumbers None 1 20 draws1) as [arr rest| |];
    [|done|done].
  destruct (generateStepsForAlgorithm (ref_key alg) arr); [done|].
  intros [= <- <-]. eauto.
Qed.

Lemma startNewGame_inv algorithmKey now draws g g' :
  state_after (startNewGame algorithmKey now draws g) = Some g' →
  engine_inv g'.
Proof.
  destruct (startNewGame algorithmKey now draws g) as [info g1|e g1| |] eqn:Hs;
    simpl; intros [= <-].
  - apply startNewGame_returns in Hs
      as (d & sm & Hg & _ & _ & _ & [Hsim _] & Hne & _).
    rewrite Hg. split; simpl.
    + done.
    + done.
    + apply Hsim.
    + intros _. split; [|eauto].
      destruct (steps sm); simpl; [done | lia].
  - apply startNewGame_throws in Hs as (alg & arr & ->).
    split; simpl; first [done | apply trace_ok_nil].
Qed.

(** The correct branch of [attemptSwap], field by field. *)
Lemma attemptSwap_correct (index1 index2 : Z) now g st x y :
  state g = PLAYING →
  stepQueue g !! currentStepIndex g = Some st →
  validateMove (Some st) index1 index2 = true →
  read (numbers g) index1 = Some x →
  read (numbers g) index2 = Some y →
  ∃ r g',
    attemptSwap index1 index2 now g = Return r g' ∧
    numbers g' =
      swap_cells (numbers g) (Z.to_nat index1) (Z.to_nat index2) x y ∧
    currentStepIndex g' = currentStepIndex g + 1 ∧
    state g' = (if length (stepQueue g) <=? currentStepIndex g + 1
                then COMPLETED else PLAYING) ∧
    stepQueue g' = stepQueue g ∧
    originalNumbers g' = originalNumbers g ∧
    currentAlgorithm g' = currentAlgorithm g ∧
    totalMoves (stats g') = totalMoves (stats g) + 1 ∧
    correctMoves (stats g') = correctMoves (stats g) + 1 ∧
    incorrectMoves (stats g') = incorrectMoves (stats g) ∧
    res_success r = true ∧ res_correct r = Some true ∧
    res_completed r =
      Some (length (stepQueue g) <=? currentStepIndex g + 1) ∧
    res_indices r = Some (index1, index2).
Proof.
  intros Hpl Hstep Hval Hx Hy. unfold attemptSwap.
  destruct (decide (state g ≠ PLAYING)) as [Hst|_]; [done|].
  simpl. rewrite Hstep, Hval, Hx, Hy.
  do 2 eexists. split; [reflexivity|].
  destruct (length (stepQueue g) <=? currentStepIndex g + 1); simpl; done.
Qed.

(** The incorrect branch of [attemptSwap], field by field. *)
Lemma attemptSwap_incorrect (index1 index2 : Z) now g st alg :
  state g = PLAYING →
  stepQueue g !! currentStepIndex g = Some st →
  validateMove (Some st) index1 index2 = false →
  currentAlgorithm g = Some alg →
  ∃ r g',
    attemptSwap index1 index2 now g = Return r g' ∧
    g' = set_stats (inc_incorrectMoves (inc_totalMoves (stats g))) g ∧
    res_success r = false ∧ res_correct r = Some false ∧
    res_indices r = Some (index1, index2) ∧
    res_expectedIndices r = Some (indices st) ∧
    res_message r = getErrorMessage (ref_key alg) (Some st) index1 index2 ∧
    res_hint r = Some (Algorithms.getNextMoveHint (ref_key alg) (Some st)).
Proof.
  intros Hpl Hstep Hval Halg. unfold attemptSwap.
  destruct (decide (state g ≠ PLAYING)) as [Hst|_]; [done|].
  simpl. rewrite Hstep, Hval, Halg.
  do 2 eexists. split; [reflexivity|]. simpl.
  unfold getNextMoveHint, currentKey. simpl. rewrite Hstep, Halg. done.
Qed.

(** A swap attempt on a consistent engine returns, and leaves the engine
    consistent. *)
Lemma attemptSwap_inv (index1 index2 : Z) now g :
  engine_inv g →
  ∃ r g', attemptSwap index1 index2 now g = Return r g' ∧ engine_inv g'.
Proof.
  intros [Hbal Hnum Htr Hplay].
  destruct (decide (state g = PLAYING)) as [Hpl|Hst].
  2:{ unfold attemptSwap. destruct (decide (state g ≠ PLAYING)); [|done].
      do 2 eexists. split; [done|]. by split. }
  destruct (Hplay Hpl) as (Hcur & d & Halg).
  destruct (lookup_lt_is_Some_2 _ _ Hcur) as [st Hstep].
  destruct (Htr _ _ Hstep) as (Hty & Hij & Hi & Hj & Hinv).
  rewrite <- Hnum in Hi, Hj.
  destruct (validateMove (Some st) index1 index2) eqn:Hval.
  - assert (∃ x y, read (numbers g) index1 = Some x ∧
                   read (numbers g) index2 = Some y ∧
                   swap_cells (numbers g) (Z.to_nat index1) (Z.to_nat index2) x y
                   = apply_step (numbers g) st) as (x & y & Hx & Hy & Hswap).
    { unfold apply_step. rewrite Hi, Hj.
      apply validateMove_true in Hval as [[-> ->]|[-> ->]];
        rewrite !read_of_nat, !Nat2Z.id; do 2 eexists;
        (split; [done|]); (split; [done|]); [done|].
      apply read_total in Hi as [Hi1 <-]. apply read_total in Hj as [Hj1 <-].
      by apply swap_cells_comm. }
    destruct (attemptSwap_correct index1 index2 now g st x y Hpl Hstep Hval Hx Hy)
      as (r & g' & Heq & Hn' & Hc' & Hs' & Hq' & Ho' & Ha' & Ht' & Hco' & Hin' & _).
    exists r, g'. split; [done|]. split.
    + unfold balanced in *. lia.
    + rewrite Hn', Hswap, Ho', Hc', Hq', Nat.add_1_r.
      rewrite (take_S_r _ _ _ Hstep), apply_plan_snoc. by rewrite <- Hnum.
    + by rewrite Ho', Hq'.
    + rewrite Hs', Hc', Hq', Ha'.
      destruct (Nat.leb_spec (length (stepQueue g)) (currentStepIndex g + 1));
        [done|]. intros _. split; [lia | eauto].
  - destruct (attemptSwap_incorrect index1 index2 now g st _ Hpl Hstep Hval Halg)
      as (r & g' & Heq & -> & _).
    exists r. eexists. split; [done|].
    split; simpl; try done. unfold balanced in *. simpl. lia.
Qed.

(** A selection on a consistent engine returns, and leaves the engine
    consistent. *)
Lemma selectElement_inv index now g :
  engine_inv g →
  ∃ r g', selectElement index now g = Return r g' ∧ engine_inv g'.
Proof.
  intros Hinv. unfold selectElement.
  destruct (decide (state g ≠ PLAYING)); [eauto|].
  case_decide; [eauto|].
  assert (∀ sel, engine_inv (set_selectedIndex sel g)) as Hsel
    by (intros sel; destruct Hinv; by split).
  destruct (selectedIndex g) as [firstIndex|]; [|eauto].
  case_decide; [eauto|].
  by apply attemptSwap_inv.
Qed.

Lemma selectRandomAlgorithm_draw d draws :
  ∃ alg, selectRandomAlgorithm (d :: draws) = Got alg draws.
Proof.
  unfold selectRandomAlgorithm.
  destruct (ALGORITHMS_keys !! random_below (length ALGORITHMS_keys) d); eauto.
Qed.

(** [startNewGame] never leaves the model, and returns or throws once it
    is given enough draws. *)
Lemma startNewGame_modelled algorithmKey now draws g :
  startNewGame algorithmKey now draws g ≠ Unmodelled.
Proof.
  unfold startNewGame.
  destruct (recognized algorithmKey) as [r|].
  - pose proof (generateRandomNumbers_defined draws).
    destruct (generateRandomNumbers None 1 20 draws); [|done|done].
    by destruct (generateStepsForAlgorithm (ref_key r) v).
  - unfold selectRandomAlgorithm. destruct draws as [|d draws]; [done|].
    pose proof (generateRandomNumbers_defined draws).
    destruct (ALGORITHMS_keys !! random_below (length ALGORITHMS_keys) d);
      (destruct (generateRandomNumbers None 1 20 draws); [|done|done]);
      by destruct (generateStepsForAlgorithm _ v).
Qed.

Lemma startNewGame_completes algorithmKey now draws g :
  is_Some (state_after
    (startNewGame algorithmKey now (draws ++ 0 :: completing_draws) g)).
Proof.
  assert (∀ alg draws1,
    is_Some (state_after
      (let g1 := set_currentAlgorithm (Some alg) (reset g) in
       match generateRandomNumbers None 1 20 (draws1 ++ completing_draws) with
       | Got arr _ =>
           let g2 := set_originalNumbers arr (set_numbers arr g1) in
           match generateStepsForAlgorithm (ref_key alg) arr with
           | Returned queue =>
               let g3 := set_currentStepIndex 0 (set_stepQueue queue g2) in
               let g4 := set_state PLAYING g3 in
               let g5 := set_stats (set_startTime (Some now) (stats g4)) g4 in
               Return {| info_numbers := numbers g5;
                         info_algorithm := currentAlgorithm g5;
                         info_totalSteps := length (stepQueue g5);
                         info_firstHint := getNextMoveHint g5 |} g5
           | Thrown msg => Throw (Error msg) g2
           end
       | NoMoreDraws => OutOfDraws
       | UndefinedCell => Unmodelled
       end))) as Hrest.
  { intros alg draws1.
    destruct (generateRandomNumbers_completes draws1) as (arr & rest & ->).
    cbv zeta. by destruct (generateStepsForAlgorithm (ref_key alg) arr). }
  unfold startNewGame.
  destruct (recognized algorithmKey) as [r|].
  - replace (draws ++ 0 :: completing_draws)
      with ((draws ++ [0]) ++ completing_draws) by (by rewrite <- app_assoc).
    apply Hrest.
  - destruct draws as [|d draws].
    + change ([] ++ 0 :: completing_draws)
        with (0 :: [] ++ completing_draws).
      destruct (selectRandomAlgorithm_draw 0 ([] ++ completing_draws))
        as [alg ->].
      apply Hrest.
    + replace ((d :: draws) ++ 0 :: completing_draws)
        with (d :: (draws ++ [0]) ++ completing_draws)
        by (simpl; by rewrite <- app_assoc).
      destruct (selectRandomAlgorithm_draw d ((draws ++ [0]) ++ completing_draws))
        as [alg ->].
      apply Hrest.
Qed.

Lemma reachable_inv g : reachable g → engine_inv g.
Proof.
  induction 1 as [g key now draws g' Hstart|g index now g' _ IH Hsel].
  - by eapply startNewGame_inv.
  - destruct (selectElement_inv index now g IH) as (r & g1 & Heq & Hinv).
    rewrite Heq in Hsel. simpl in Hsel. by injection Hsel as <-.
Qed.

(** From a state of a session every selection returns. *)
Lemma reachable_selectElement_returns g index now :
  reachable g → ∃ r g', selectElement index now g = Return r g' ∧ reachable g'.
Proof.
  intros Hreach.
  destruct (selectElement_inv index now g (reachable_inv g Hreach))
    as (r & g' & Heq & _).
  exists r, g'. split; [done|].
  apply (reachable_select g index now g' Hreach). by rewrite Heq.
Qed.

(** While a session is in the playing state its algorithm is one of the
    three descriptors. *)
Lemma reachable_playing_algorithm g :
  reachable g → state g = PLAYING →
  ∃ d, currentAlgorithm g = Some (Descriptor d).
Proof. intros Hreach Hpl. by apply (inv_playing g (reachable_inv g Hreach)). Qed.
End Session.

(** ** The sample game *)

Lemma sample_game_numbers :
  numbers sample_game = [4; 3; 6; 8; 7; 5]%Z ∧
  currentKey sample_game = Some "bubble" ∧
  length (stepQueue sample_game) = 5.
Proof. vm_compute. done. Qed.

Lemma sample_game_reachable : reachable sample_game.
Proof.
  by apply (reachable_start new_GameEngine None 1000%Z sample_draws).
Qed.

Lemma sample_played_reachable : reachable sample_played.
Proof.
  apply (reachable_select (after (selectElement 0 1001 sample_game)) 1 1002%Z);
    [|by vm_compute].
  apply (reachable_select sample_game 0 1001%Z); [|by vm_compute].
  apply sample_game_reachable.
Qed.

Lemma sample_missed_reachable : reachable sample_missed.
Proof.
  apply (reachable_select (after (selectElement 0 1003 sample_played)) 5 1004%Z);
    [|by vm_compute].
  apply (reachable_select sample_played 0 1003%Z); [|by vm_compute].
  apply sample_played_reachable.
Qed.

Lemma sample_missed_stats :
  totalMoves (stats sample_missed) = 2 ∧
  correctMoves (stats sample_missed) = 1 ∧
  incorrectMoves (stats sample_missed) = 1 ∧
  currentStepIndex sample_missed = 1 ∧
  numbers sample_missed = [3; 4; 6; 8; 7; 5]%Z.
Proof. vm_compute. done. Qed.

(** ** Properties of the session *)

(** C3: in every state of a session, and after every swap attempt made
    from such a state, whichever the two indices, the total number of
    moves is the number of correct moves plus the number of incorrect
    ones. *)
Theorem moves_add_up (g : Engine) :
  reachable g →
  totalMoves (stats g) = correctMoves (stats g) + incorrectMoves (stats g) ∧
  ∀ index1 index2 now, ∃ r g',
    attemptSwap index1 index2 now g = Return r g' ∧
    totalMoves (stats g') = correctMoves (stats g') + incorrectMoves (stats g').
Proof.
  intros Hreach. apply reachable_inv in Hreach.
  split; [apply Hreach|].
  intros index1 index2 now.
  destruct (attemptSwap_inv index1 index2 now g Hreach) as (r & g' & Heq & Hinv).
  exists r, g'. split; [done | apply Hinv].
Qed.

Lemma moves_add_up_witness :
  totalMoves (stats sample_missed) =
    correctMoves (stats sample_missed) + incorrectMoves (stats sample_missed) ∧
  ∀ index1 index2 now, ∃ r g',
    attemptSwap index1 index2 now sample_missed = Return r g' ∧
    totalMoves (stats g') = correctMoves (stats g') + incorrectMoves (stats g').
Proof. apply (moves_add_up sample_missed sample_missed_reachable). Defined.

(** C9: in every state of a session the live sequence is the original
    sequence after the first [currentStepIndex] steps of the plan, applied
    in order; so the values recorded in the step at the cursor are the
    values at that step's positions in the live sequence. *)
Theorem live_sequence_replays_plan (g : Engine) :
  reachable g →
  numbers g =
    apply_plan (originalNumbers g) (take (currentStepIndex g) (stepQueue g)) ∧
  ∀ st, stepQueue g !! currentStepIndex g = Some st →
    numbers g !! (indices st).1 = Some (values st).1 ∧
    numbers g !! (indices st).2 = Some (values st).2.
Proof.
  intros Hreach. apply reachable_inv in Hreach as [_ Hnum Htr _].
  split; [done|]. intros st Hst.
  destruct (Htr _ _ Hst) as (_ & _ & Hi & Hj & _).
  by rewrite <- Hnum in Hi, Hj.
Qed.

Lemma live_sequence_replays_plan_witness :
  numbers sample_played =
    apply_plan (originalNumbers sample_played)
      (take (currentStepIndex sample_played) (stepQueue sample_played)) ∧
  ∀ st, stepQueue sample_played !! currentStepIndex sample_played = Some st →
    numbers sample_played !! (indices st).1 = Some (values st).1 ∧
    numbers sample_played !! (indices st).2 = Some (values st).2.
Proof.
  apply (live_sequence_replays_plan sample_played sample_played_reachable).
Defined.




(** The error messages of the three algorithms for one step and one
    attempt are three different texts. *)
Lemma error_messages_differ (st : Step) (index1 index2 : Z) :
  NoDup [ getErrorMessage (Some "bubble") (Some st) index1 index2;
          getErrorMessage (Some "selection") (Some st) index1 index2;
          getErrorMessage (Some "insertion") (Some st) index1 index2 ].
Proof.
  unfold getErrorMessage.
  destruct (indices st) as [i j], (values st) as [x y].
  change (is_case (Some "bubble") "bubble") with true.
  change (is_case (Some "selection") "bubble") with false.
  change (is_case (Some "selection") "selection") with true.
  change (is_case (Some "insertion") "bubble") with false.
  change (is_case (Some "insertion") "selection") with false.
  change (is_case (Some "insertion") "insertion") with true.
  cbv iota.
  case_bool_decide; cbv beta iota delta [String.append];
    repeat (apply NoDup_cons; split;
            [rewrite ?elem_of_cons, elem_of_nil; intuition discriminate|]);
    apply NoDup_nil_2.
Qed.

(** C10: a game that [startNewGame] creates has a plan with at least one
    step.  The sequence [generateRandomNumbers()] returns has at least
    five values, all distinct, and is not in non-decreasing order; on a
    sequence that is not in order the plan of each algorithm has at least
    one step; so the queue of a new game is not empty, and in every state
    of a session that is in the playing state there is a step at the
    cursor: a swap attempt never takes the branch of the exhausted plan. *)
Theorem new_game_has_moves :
  (∀ draws arr rest,
     generateRandomNumbers None 1 20 draws = Got arr rest →
     5 ≤ length arr ∧ NoDup arr ∧ ¬ nondecreasing_seq arr) ∧
  (∀ algorithmKey arr plan,
     ¬ nondecreasing_seq arr →
     generateStepsForAlgorithm algorithmKey arr = Returned plan →
     1 ≤ length plan) ∧
  (∀ algorithmKey now draws g info g',
     startNewGame algorithmKey now draws g = Return info g' →
     1 ≤ length (stepQueue g') ∧
     info_totalSteps info = length (stepQueue g') ∧
     state g' = PLAYING ∧ currentStepIndex g' = 0) ∧
  (∀ g, reachable g → state g = PLAYING →
     is_Some (stepQueue g !! currentStepIndex g)).
Proof.
  split; [|split; [|split]].
  - intros draws arr rest Hgen.
    apply generateRandomNumbers_spec in Hgen as (? & ? & ? & ? & ?). done.
  - intros algorithmKey arr plan Hns Hplan.
    apply generateStepsForAlgorithm_returned in Hplan as (_ & sm & Hrun & ->).
    destruct (steps sm) eqn:Hsteps; [|simpl; lia].
    by apply (run_ok_empty arr sm Hrun) in Hsteps.
  - intros algorithmKey now draws g info g' Hstart.
    apply startNewGame_returns in Hstart
      as (d & sm & -> & _ & _ & _ & _ & Hne & Htotal).
    simpl. split; [|done]. destruct (steps sm); simpl; [done | lia].
  - intros g Hreach Hpl. apply reachable_inv in Hreach as [_ _ _ Hplay].
    apply lookup_lt_is_Some_2. by apply Hplay.
Qed.

Lemma new_game_has_moves_witness :
  1 ≤ length (stepQueue sample_game) ∧
  is_Some (stepQueue sample_played !! currentStepIndex sample_played).
Proof.
  destruct new_game_has_moves as (_ & _ & Hstart & Hstep). split.
  - apply (Hstart None 1000%Z sample_draws new_GameEngine
             {| info_numbers := numbers sample_game;
                info_algorithm := currentAlgorithm sample_game;
                info_totalSteps := length (stepQueue sample_game);
                info_firstHint := getNextMoveHint sample_game |}
             sample_game).
    vm_compute. reflexivity.
  - apply (Hstep sample_played sample_played_reachable).
    vm_compute. reflexivity.
Defined.

(** ** Unrecognized algorithm keys *)

Lemma selectRandomAlgorithm_spec draws alg rest :
  selectRandomAlgorithm draws = Got alg rest →
  alg = Descriptor bubble ∨ alg = Descriptor selection ∨
  alg = Descriptor insertion.
Proof.
  unfold selectRandomAlgorithm. destruct draws as [|d draws]; [done|].
  unfold random_below. simpl length.
  pose proof (Nat.mod_upper_bound d 3 ltac:(lia)) as Hd.
  destruct (d `mod` 3) as [|[|[|?]]]; [| | |lia]; intros [= <- <-]; auto.
Qed.

Lemma recognized_undefined (k : string) :
  ALGORITHMS k = Undefined → recognized (Some k) = None.
Proof.
  intros Hk. unfold recognized. case_decide; [done|]. by rewrite Hk.
Qed.

(** C2, as the code has it: an algorithm key that names no property of
    [ALGORITHMS] (for example "quicksort") makes [changeAlgorithm] raise
    the unrecognized-algorithm error and leave the whole session state as
    it was.  [startNewGame] does not raise on such a key: it does what it
    does without a key, that is, it discards the prior state and starts a
    game on a randomly selected algorithm. *)
Theorem unrecognized_algorithm (k : string) (now : Z) (draws : list nat)
    (g : Engine) :
  ALGORITHMS k = Undefined →
  changeAlgorithm (Some k) now draws g =
    Throw (Error ("Algoritm necunoscut: " +:+ k)) g ∧
  startNewGame (Some k) now draws g = startNewGame None now draws g ∧
  startNewGame (Some k) now draws g =
    startNewGame (Some k) now draws new_GameEngine ∧
  (∀ e g', startNewGame (Some k) now draws g ≠ Throw e g').
Proof.
  intros Hk. split; [|split; [|split]].
  - unfold changeAlgorithm. simpl. by rewrite Hk.
  - unfold startNewGame. by rewrite (recognized_undefined k Hk).
  - reflexivity.
  - intros e g'. unfold startNewGame. rewrite (recognized_undefined k Hk).
    simpl.
    destruct (selectRandomAlgorithm draws) as [alg draws1| |] eqn:Hsel;
      [|done|done].
    destruct (generateRandomNumbers None 1 20 draws1) as [arr rest| |];
      [|done|done].
    apply selectRandomAlgorithm_spec in Hsel as [-> | [-> | ->]]; done.
Qed.

Lemma unrecognized_algorithm_witness :
  changeAlgorithm (Some "quicksort") 2000 sample_draws sample_played =
    Throw (Error ("Algoritm necunoscut: " +:+ "quicksort")) sample_played ∧
  startNewGame (Some "quicksort") 2000 sample_draws sample_played =
    startNewGame None 2000 sample_draws sample_played ∧
  startNewGame (Some "quicksort") 2000 sample_draws sample_played =
    startNewGame (Some "quicksort") 2000 sample_draws new_GameEngine ∧
  (∀ e g',
     startNewGame (Some "quicksort") 2000 sample_draws sample_played ≠ Throw e g').
Proof.
  apply (unrecognized_algorithm "quicksort" 2000 sample_draws sample_played).
  vm_compute. reflexivity.
Defined.

(** C2, as the specification has it, fails: on the sample game after one
    correct move, [startNewGame] with the key "quicksort" raises nothing;
    it returns a new game, and the cursor and the statistics of the game
    in progress are gone. *)
Lemma startNewGame_quicksort_counterexample :
  ¬ (∃ e, startNewGame (Some "quicksort") 2000 sample_draws sample_played =
            Throw e sample_played) ∧
  ∃ info g',
    startNewGame (Some "quicksort") 2000 sample_draws sample_played =
      Return info g' ∧
    currentStepIndex sample_played = 1 ∧ currentStepIndex g' = 0 ∧
    totalMoves (stats sample_played) = 1 ∧ totalMoves (stats g') = 0.
Proof.
  split.
  - intros [e He]. vm_compute in He. discriminate He.
  - do 2 eexists. split; [vm_compute; reflexivity|]. vm_compute. done.
Qed.

(** * Further properties of the generators and of the engine *)

(** ** Swaps as rearrangements *)

Section SwapShape.
Implicit Types (a pre mid post : list Z) (i j : nat) (x y : Z).

(** A swap of two positions, the left one first, seen on the list. *)
Lemma swap_cells_split a i j x y :
  i < j → a !! i = Some x → a !! j = Some y →
  ∃ pre mid post,
    a = pre ++ x :: mid ++ y :: post ∧
    swap_cells a i j x y = pre ++ y :: mid ++ x :: post ∧
    length pre = i ∧ length mid = j - i - 1.
Proof.
  intros Hij Hi Hj.
  pose proof (lookup_lt_Some _ _ _ Hi) as Hilen.
  pose proof (lookup_lt_Some _ _ _ Hj) as Hjlen.
  set (rest := drop (Datatypes.S i) a).
  assert (rest !! (j - i - 1) = Some y) as Hrest.
  { subst rest. rewrite lookup_drop. rewrite <- Hj. f_equal. lia. }
  exists (take i a), (take (j - i - 1) rest), (drop (Datatypes.S (j - i - 1)) rest).
  assert (a = take i a ++ x :: take (j - i - 1) rest
                ++ y :: drop (Datatypes.S (j - i - 1)) rest) as Ha.
  { rewrite (take_drop_middle rest _ y Hrest). subst rest.
    by rewrite (take_drop_middle a i x Hi). }
  assert (length (take i a) = i) as Hpre by (rewrite length_take; lia).
  assert (length (take (j - i - 1) rest) = j - i - 1) as Hmid.
  { rewrite length_take. apply lookup_lt_Some in Hrest. lia. }
  split; [exact Ha|]. split; [|done].
  unfold swap_cells. rewrite Ha at 1.
  set (pre := take i a) in *. set (mid := take (j - i - 1) rest) in *.
  set (post := drop (Datatypes.S (j - i - 1)) rest) in *.
  rewrite (insert_app_r_alt pre _ i) by lia.
  replace (i - length pre) with 0 by lia. simpl.
  rewrite (insert_app_r_alt pre _ j) by lia.
  replace (j - length pre) with (Datatypes.S (j - i - 1)) by lia. simpl.
  rewrite (insert_app_r_alt mid _ (j - i - 1)) by lia.
  replace (j - i - 1 - length mid) with 0 by lia. done.
Qed.

Lemma apply_step_Permutation a st : apply_step a st ≡ₚ a.
Proof.
  unfold apply_step.
  destruct (a !! (indices st).1) as [x|] eqn:Hi; [|done].
  destruct (a !! (indices st).2) as [y|] eqn:Hj; [|done].
  destruct (lt_eq_lt_dec (indices st).1 (indices st).2) as [[Hlt|Heq]|Hgt].
  - destruct (swap_cells_split a _ _ x y Hlt Hi Hj)
      as (pre & mid & post & Ha & -> & _).
    rewrite Ha at 1. apply Permutation_app_head.
    rewrite <- !Permutation_middle. apply perm_swap.
  - rewrite Heq in Hi. rewrite Hi in Hj. injection Hj as <-.
    unfold swap_cells. rewrite Heq, list_insert_insert_eq.
    by rewrite list_insert_id.
  - replace (swap_cells a (indices st).1 (indices st).2 x y)
      with (swap_cells a (indices st).2 (indices st).1 y x)
      by (unfold swap_cells; apply list_insert_insert_ne; lia).
    destruct (swap_cells_split a _ _ y x Hgt Hj Hi)
      as (pre & mid & post & Ha & -> & _).
    rewrite Ha at 1. apply Permutation_app_head.
    rewrite <- !Permutation_middle. apply perm_swap.
Qed.

Lemma apply_plan_Permutation a (plan : list Step) : apply_plan a plan ≡ₚ a.
Proof.
  revert a. induction plan as [|st plan IH]; intros a; [done|].
  unfold apply_plan in *. simpl. rewrite IH. apply apply_step_Permutation.
Qed.
End SwapShape.

(** ** Inversions *)

Section Inversions.
Implicit Types (l s pre mid post : list Z) (x y z : Z).

Lemma count_below_app x l s :
  count_below x (l ++ s) = count_below x l + count_below x s.
Proof. induction l as [|y l IH]; simpl; [done|]. rewrite IH. lia. Qed.

Lemma count_below_mono x y l : (y ≤ x)%Z → count_below y l ≤ count_below x l.
Proof.
  intros Hyx. induction l as [|z l IH]; simpl; [done|].
  destruct (Z.ltb_spec z y), (Z.ltb_spec z x); lia.
Qed.

Lemma inversions_app l s :
  inversions (l ++ s) = inversions l + cross_inversions l s + inversions s.
Proof.
  induction l as [|x l IH]; simpl; [done|].
  rewrite IH, count_below_app. lia.
Qed.

Lemma cross_inversions_cons_mono mid x y post :
  (y ≤ x)%Z →
  cross_inversions mid (x :: post) ≤ cross_inversions mid (y :: post).
Proof.
  intros Hyx. induction mid as [|z mid IH]; simpl; [done|].
  destruct (Z.ltb_spec x z), (Z.ltb_spec y z); lia.
Qed.

(** Two cells out of order trading places: at least one inversion goes,
    and exactly one when the cells are neighbours. *)
Lemma inversions_swap pre mid post x y :
  (y < x)%Z →
  inversions (pre ++ y :: mid ++ x :: post) + 1
    ≤ inversions (pre ++ x :: mid ++ y :: post) ∧
  (mid = [] →
   inversions (pre ++ y :: mid ++ x :: post) + 1
     = inversions (pre ++ x :: mid ++ y :: post)).
Proof.
  intros Hyx.
  assert (cross_inversions pre (y :: mid ++ x :: post) =
          cross_inversions pre (x :: mid ++ y :: post)) as Hcross.
  { induction pre as [|z pre IH]; simpl; [done|].
    rewrite IH, !count_below_app. simpl. lia. }
  rewrite !(inversions_app pre), Hcross. simpl.
  rewrite !inversions_app, !count_below_app. simpl.
  pose proof (count_below_mono x y mid ltac:(lia)).
  pose proof (cross_inversions_cons_mono mid x y post ltac:(lia)).
  destruct (Z.ltb_spec y x), (Z.ltb_spec x y); try lia.
  split; [lia|]. intros ->. simpl in *. lia.
Qed.

Lemma inversions_sorted l : Sorted Z.le l → inversions l = 0.
Proof.
  intros Hs. apply Sorted_StronglySorted in Hs; [|apply _].
  induction Hs as [|x l Hs IH Hall]; simpl; [done|].
  rewrite IH, Nat.add_0_r. clear IH Hs.
  induction Hall as [|y l Hxy Hall IH]; simpl; [done|].
  destruct (Z.ltb_spec y x); lia.
Qed.

(** A recorded step removes at least one inversion, and exactly one when
    it swaps neighbours. *)
Lemma apply_step_inversions (a : list Z) (st : Step) :
  step_ok a st →
  inversions (apply_step a st) + 1 ≤ inversions a ∧
  (adjacent_step st → inversions (apply_step a st) + 1 = inversions a).
Proof.
  intros (_ & Hij & Hi & Hj & Hyx). unfold apply_step. rewrite Hi, Hj.
  destruct (swap_cells_split a _ _ _ _ Hij Hi Hj)
    as (pre & mid & post & Ha & -> & Hpre & Hmid).
  rewrite Ha.
  destruct (inversions_swap pre mid post _ _ Hyx) as [Hle Heq].
  split; [done|]. intros Hadj. apply Heq.
  unfold adjacent_step in Hadj. apply nil_length_inv. lia.
Qed.

Lemma trace_ok_snoc_inv (arr : list Z) (plan : list Step) (st : Step) :
  trace_ok arr (plan ++ [st]) →
  trace_ok arr plan ∧ step_ok (apply_plan arr plan) st.
Proof.
  intros H. split.
  - intros k st' Hk.
    pose proof (lookup_lt_Some _ _ _ Hk) as Hlt.
    specialize (H k st').
    rewrite lookup_app_l, take_app_le in H by lia. by apply H.
  - specialize (H (length plan) st).
    rewrite take_app_length in H. apply H.
    by rewrite lookup_app_r, Nat.sub_diag by lia.
Qed.

(** A plan of recorded steps is no longer than the number of inversions
    it removes, and as long when all its steps swap neighbours. *)
Lemma trace_ok_inversions (arr : list Z) (plan : list Step) :
  trace_ok arr plan →
  length plan + inversions (apply_plan arr plan) ≤ inversions arr ∧
  (Forall adjacent_step plan →
   length plan + inversions (apply_plan arr plan) = inversions arr).
Proof.
  induction plan as [|st plan IH] using rev_ind; intros Htr.
  - simpl. split; [lia | done].
  - apply trace_ok_snoc_inv in Htr as [Htr Hst].
    destruct (IH Htr) as [Hle Heq].
    destruct (apply_step_inversions _ _ Hst) as [Hle' Heq'].
    rewrite apply_plan_snoc, length_app. simpl. split; [lia|].
    intros Hadj. apply Forall_app in Hadj as [Hadj Hst'].
    rewrite Forall_singleton in Hst'.
    specialize (Heq Hadj). specialize (Heq' Hst'). lia.
Qed.
End Inversions.

(** ** The shape of the recorded steps *)

Section StepShapes.
Implicit Types (arr : list Z) (sm : Sim) (st : Step).

Lemma record_swap_Forall (P : Step → Prop) sm st i j x y :
  Forall P (steps sm) → P st → Forall P (steps (record_swap sm st i j x y)).
Proof. intros. simpl. apply Forall_app. by rewrite Forall_singleton. Qed.

Lemma bubble_run_shaped arr :
  Forall (bubble_shaped (length arr)) (steps (bubble_run arr)).
Proof.
  unfold bubble_run. set (n := length arr).
  destruct (decide (n ≤ 1)) as [Hsmall|Hbig].
  { rewrite for_loop_break_empty by lia. by simpl. }
  apply (for_loop_break_rule
           (fun _ sm => Forall (bubble_shaped n) (steps sm))
           (fun sm => Forall (bubble_shaped n) (steps sm))); [lia|by simpl| |done].
  intros i sm Hi Hall. unfold bubble_pass.
  assert (Forall (bubble_shaped n)
            (steps (for_loop 0 (n - i - 1) (bubble_compare i) (sm, false)).1))
    as Hpass.
  { apply (for_loop_rule
             (fun _ s => Forall (bubble_shaped n) (steps s.1))); [lia|done|].
    intros j s Hj Hs. unfold bubble_compare.
    repeat case_match; try done.
    apply record_swap_Forall; [done|]. do 4 eexists. split; [done|lia]. }
  destruct (for_loop 0 (n - i - 1) (bubble_compare i) (sm, false))
    as [sm' swapped]; simpl in *.
  by destruct swapped.
Qed.

Lemma selection_run_shaped arr :
  Forall selection_shaped (steps (selection_run arr)).
Proof.
  unfold selection_run.
  apply (for_loop_rule (fun _ sm => Forall selection_shaped (steps sm)));
    [lia|by simpl|].
  intros i sm Hi Hall. unfold selection_place.
  repeat case_match; try done.
  apply record_swap_Forall; [done|]. by do 4 eexists.
Qed.

Lemma insertion_shift_shaped n i j sm :
  j ≤ i → i < n →
  Forall (insertion_shaped n) (steps sm) →
  Forall (insertion_shaped n) (steps (insertion_shift i j sm)).
Proof.
  revert sm. induction j as [|j IH]; intros sm Hji Hi Hall; simpl; [done|].
  repeat case_match; try done.
  apply IH; [lia|done|].
  apply record_swap_Forall; [done|]. do 4 eexists. split; [done|lia].
Qed.

Lemma insertion_run_shaped arr :
  Forall (insertion_shaped (length arr)) (steps (insertion_run arr)).
Proof.
  unfold insertion_run. set (n := length arr).
  destruct (decide (n = 0)) as [Hz|Hnz].
  { rewrite for_loop_empty by lia. by simpl. }
  apply (for_loop_rule (fun _ sm => Forall (insertion_shaped n) (steps sm)));
    [lia|by simpl|].
  intros i sm Hi Hall. apply insertion_shift_shaped; [lia|lia|done].
Qed.

(** What a recorded plan says of each of its steps. *)
Lemma trace_ok_bounds arr (plan : list Step) :
  trace_ok arr plan →
  Forall (λ st, type st = SWAP ∧
                (indices st).1 < (indices st).2 ∧
                (indices st).2 < length arr ∧
                ((values st).2 < (values st).1)%Z) plan.
Proof.
  intros Htr. apply Forall_lookup. intros k st Hk.
  destruct (Htr k st Hk) as (Hty & Hij & _ & Hj & Hyx).
  apply lookup_lt_Some in Hj. rewrite apply_plan_length in Hj. done.
Qed.

(** The values a step records are values of the input. *)
Lemma trace_ok_values arr (plan : list Step) :
  trace_ok arr plan →
  Forall (λ st, (values st).1 ∈ arr ∧ (values st).2 ∈ arr) plan.
Proof.
  intros Htr. apply Forall_lookup. intros k st Hk.
  destruct (Htr k st Hk) as (_ & _ & Hi & Hj & _).
  apply list_elem_of_lookup_2 in Hi, Hj.
  by rewrite apply_plan_Permutation in Hi, Hj.
Qed.
End StepShapes.

(** ** What the plans are *)

(** X1: whichever supported algorithm generates it, the plan rearranges
    the input into non-decreasing order without losing or adding a value;
    so the plans of any two algorithms for one input lead to the same
    final sequence. *)
Theorem plans_reach_same_sequence (key1 key2 : option string)
    (arr : list Z) (plan1 plan2 : list Step) :
  generateStepsForAlgorithm key1 arr = Returned plan1 →
  generateStepsForAlgorithm key2 arr = Returned plan2 →
  apply_plan arr plan1 ≡ₚ arr ∧
  nondecreasing_seq (apply_plan arr plan1) ∧
  apply_plan arr plan1 = apply_plan arr plan2.
Proof.
  intros H1 H2.
  apply generateStepsForAlgorithm_returned in H1 as (_ & sm1 & Hrun1 & ->).
  apply generateStepsForAlgorithm_returned in H2 as (_ & sm2 & Hrun2 & ->).
  pose proof (run_ok_sorts arr sm1 Hrun1) as Hs1.
  pose proof (run_ok_sorts arr sm2 Hrun2) as Hs2.
  split; [apply apply_plan_Permutation|]. split; [done|].
  apply (Sorted_unique Z.le); [done|done|].
  by rewrite !apply_plan_Permutation.
Qed.

Lemma plans_reach_same_sequence_witness :
  apply_plan [4; 1; 3; 1]%Z (generateBubbleSortSteps [4; 1; 3; 1]%Z)
    ≡ₚ [4; 1; 3; 1]%Z ∧
  nondecreasing_seq
    (apply_plan [4; 1; 3; 1]%Z (generateBubbleSortSteps [4; 1; 3; 1]%Z)) ∧
  apply_plan [4; 1; 3; 1]%Z (generateBubbleSortSteps [4; 1; 3; 1]%Z) =
  apply_plan [4; 1; 3; 1]%Z (generateSelectionSortSteps [4; 1; 3; 1]%Z).
Proof.
  apply (plans_reach_same_sequence (Some "bubble") (Some "selection"));
    reflexivity.
Defined.

(** X2: the bubble plan and the insertion plan have exactly as many steps
    as the input has inversions (pairs of positions out of order), so the
    two plans are equally long; the selection plan is never longer. *)
Theorem plan_length_inversions (arr : list Z) :
  length (generateBubbleSortSteps arr) = inversions arr ∧
  length (generateInsertionSortSteps arr) = inversions arr ∧
  length (generateSelectionSortSteps arr) ≤ inversions arr.
Proof.
  assert (∀ sm, run_ok arr sm →
            length (steps sm) ≤ inversions arr ∧
            (Forall adjacent_step (steps sm) →
             length (steps sm) = inversions arr)) as Hrun.
  { intros sm [Hsim Hord].
    destruct (trace_ok_inversions arr (steps sm) (ok_trace _ _ Hsim))
      as [Hle Heq].
    rewrite (ok_replay _ _ Hsim) in Hle, Heq.
    apply adjacent_ordered_Sorted, inversions_sorted in Hord.
    split; [lia|]. intros Hadj. specialize (Heq Hadj). lia. }
  split; [|split].
  - apply (Hrun _ (bubble_run_ok arr)).
    eapply Forall_impl; [apply bubble_run_shaped|].
    intros st (i & j & x & y & -> & _). reflexivity.
  - apply (Hrun _ (insertion_run_ok arr)).
    eapply Forall_impl; [apply insertion_run_shaped|].
    intros st (i & j & x & y & -> & Hj & _). unfold adjacent_step. simpl. lia.
  - apply (Hrun _ (selection_run_ok arr)).
Qed.

(** X3: every step of a generated plan is a swap of two positions of the
    sequence, the left one first, that records two values of the input,
    the left one larger than the right one.  A bubble step swaps
    neighbours [j], [j+1] and carries a pass number from 1 to n-1; a
    selection step swaps a boundary [i] with a later position; an
    insertion step swaps neighbours [j-1], [j] while inserting the element
    that started at [i >= j].  The message of the step is the text below
    for these positions and values. *)
Theorem generated_steps_shape (arr : list Z) :
  let n := length arr in
  Forall (λ st, ∃ i j x y,
            type st = SWAP ∧ indices st = (j, j + 1) ∧ values st = (x, y) ∧
            meta st = BubbleMeta (i + 1) j ∧
            i < n - 1 ∧ j + 1 < n ∧ (y < x)%Z ∧ x ∈ arr ∧ y ∈ arr ∧
            (safe_integer x → safe_integer y →
             message st =
               "Schimbă " +:+ pretty x +:+ " cu " +:+ pretty y
                 +:+ " (poziții " +:+ pretty j +:+ " și "
                 +:+ pretty (j + 1) +:+ ")"))
         (generateBubbleSortSteps arr) ∧
  Forall (λ st, ∃ i minIdx x y,
            type st = SWAP ∧ indices st = (i, minIdx) ∧ values st = (x, y) ∧
            meta st = SelectionMeta i minIdx ∧
            i < minIdx ∧ minIdx < n ∧ (y < x)%Z ∧ x ∈ arr ∧ y ∈ arr ∧
            (safe_integer x → safe_integer y →
             message st =
               "Mută minimul " +:+ pretty y +:+ " de la poziția "
                 +:+ pretty minIdx +:+ " la poziția " +:+ pretty i))
         (generateSelectionSortSteps arr) ∧
  Forall (λ st, ∃ i j x y,
            type st = SWAP ∧ indices st = (j - 1, j) ∧ values st = (x, y) ∧
            meta st = InsertionMeta i j ∧
            0 < j ∧ j ≤ i ∧ i < n ∧ (y < x)%Z ∧ x ∈ arr ∧ y ∈ arr ∧
            (safe_integer x → safe_integer y →
             message st =
               "Mută " +:+ pretty y +:+ " spre stânga (schimbă cu "
                 +:+ pretty x +:+ ")"))
         (generateInsertionSortSteps arr).
Proof.
  intros n. split; [|split].
  - pose proof (ok_trace _ _ (proj1 (bubble_run_ok arr))) as Htr.
    pose proof (trace_ok_bounds arr _ Htr) as Hb.
    pose proof (trace_ok_values arr _ Htr) as Hv.
    pose proof (bubble_run_shaped arr) as Hs.
    apply Forall_lookup. intros k st Hk.
    destruct (proj1 (Forall_lookup _ _) Hs k st Hk) as (i & j & x & y & -> & Hi).
    destruct (proj1 (Forall_lookup _ _) Hb k _ Hk) as (_ & _ & Hj & Hyx).
    destruct (proj1 (Forall_lookup _ _) Hv k _ Hk) as (Hx & Hy).
    simpl in *. exists i, j, x, y. done.
  - pose proof (ok_trace _ _ (proj1 (selection_run_ok arr))) as Htr.
    pose proof (trace_ok_bounds arr _ Htr) as Hb.
    pose proof (trace_ok_values arr _ Htr) as Hv.
    pose proof (selection_run_shaped arr) as Hs.
    apply Forall_lookup. intros k st Hk.
    destruct (proj1 (Forall_lookup _ _) Hs k st Hk) as (i & m & x & y & ->).
    destruct (proj1 (Forall_lookup _ _) Hb k _ Hk) as (_ & Him & Hm & Hyx).
    destruct (proj1 (Forall_lookup _ _) Hv k _ Hk) as (Hx & Hy).
    simpl in *. exists i, m, x, y. done.
  - pose proof (ok_trace _ _ (proj1 (insertion_run_ok arr))) as Htr.
    pose proof (trace_ok_bounds arr _ Htr) as Hb.
    pose proof (trace_ok_values arr _ Htr) as Hv.
    pose proof (insertion_run_shaped arr) as Hs.
    apply Forall_lookup. intros k st Hk.
    destruct (proj1 (Forall_lookup _ _) Hs k st Hk)
      as (i & j & x & y & -> & Hj & Hji & Hi).
    destruct (proj1 (Forall_lookup _ _) Hb k _ Hk) as (_ & _ & _ & Hyx).
    destruct (proj1 (Forall_lookup _ _) Hv k _ Hk) as (Hx & Hy).
    simpl in *. exists i, j, x, y. done.
Qed.

(** ** Sessions, state by state *)

Section SessionStates.
Implicit Types (g : Engine) (now index : Z).

#[local] Arguments validateMove : simpl never.
#[local] Arguments getErrorMessage : simpl never.
#[local] Arguments Algorithms.getNextMoveHint : simpl never.
#[local] Arguments read : simpl never.
#[local] Arguments swap_cells : simpl never.
#[local] Arguments nondecreasing : simpl never.
#[local] Arguments generateStepsForAlgorithm : simpl never.

(** The correct branch of [attemptSwap]: the state it leaves and the
    result it returns. *)
Lemma attemptSwap_correct_outcome (index1 index2 : Z) now g st x y :
  state g = PLAYING →
  stepQueue g !! currentStepIndex g = Some st →
  validateMove (Some st) index1 index2 = true →
  read (numbers g) index1 = Some x →
  read (numbers g) index2 = Some y →
  let g' := correct_outcome now
              (swap_cells (numbers g) (Z.to_nat index1) (Z.to_nat index2) x y) g in
  attemptSwap index1 index2 now g =
  Return {| res_success := true; res_correct := Some true;
            res_completed :=
              Some (length (stepQueue g) <=? currentStepIndex g + 1);
            res_action := None; res_selectedIndex := None;
            res_indices := Some (index1, index2);
            res_expectedIndices := None;
            res_message := "Corect! Continuă.";
            res_nextHint := Some (getNextMoveHint g');
            res_hint := None;
            res_progress := Some (getProgress g') |} g'.
Proof.
  intros Hpl Hstep Hval Hx Hy. unfold attemptSwap.
  destruct (decide (state g ≠ PLAYING)) as [Hst|_]; [done|].
  simpl. rewrite Hstep, Hval, Hx, Hy. reflexivity.
Qed.

(** In a consistent engine the expected pair reads two cells, and the
    swap of the attempt is the expected step. *)
Lemma expected_swap (index1 index2 : Z) g st :
  engine_inv g →
  stepQueue g !! currentStepIndex g = Some st →
  validateMove (Some st) index1 index2 = true →
  ∃ x y,
    read (numbers g) index1 = Some x ∧ read (numbers g) index2 = Some y ∧
    swap_cells (numbers g) (Z.to_nat index1) (Z.to_nat index2) x y
    = apply_step (numbers g) st.
Proof.
  intros [_ Hnum Htr _] Hstep Hval.
  destruct (Htr _ _ Hstep) as (_ & Hij & Hi & Hj & _).
  rewrite <- Hnum in Hi, Hj.
  unfold apply_step. rewrite Hi, Hj.
  apply validateMove_true in Hval as [[-> ->]|[-> ->]];
    rewrite !read_of_nat, !Nat2Z.id; do 2 eexists;
    (split; [done|]); (split; [done|]); [done|].
  unfold swap_cells. apply list_insert_insert_ne. lia.
Qed.

Lemma session_inv_correct_outcome now g st :
  session_inv g → state g = PLAYING →
  stepQueue g !! currentStepIndex g = Some st →
  session_inv (correct_outcome now (apply_step (numbers g) st) g).
Proof.
  intros [[Hbal Hnum Htr Hplay] Hfresh Hcorr Hstate] Hpl Hstep.
  rewrite Hpl in Hstate. destruct Hstate as (Hplan & Hstart & Hend).
  pose proof (lookup_lt_Some _ _ _ Hstep) as Hlt.
  destruct (Hplay Hpl) as (_ & d & Halg).
  assert (apply_step (numbers g) st =
          apply_plan (originalNumbers g)
            (take (currentStepIndex g + 1) (stepQueue g))) as Hnext.
  { rewrite Nat.add_1_r, (take_S_r _ _ _ Hstep), apply_plan_snoc.
    by rewrite <- Hnum. }
  unfold correct_outcome.
  destruct (Nat.leb_spec (length (stepQueue g)) (currentStepIndex g + 1)).
  - split; [split|..]; simpl; try done.
    + unfold balanced in *. simpl. lia.
    + lia.
    + split; [done|]. split; [lia|]. split; [done | eauto].
  - split; [split|..]; simpl; try done.
    + unfold balanced in *. simpl. lia.
    + intros _. split; [lia | eauto].
    + lia.
    + rewrite Hpl. done.
Qed.

(** A swap attempt on a session returns, and leaves a session. *)
Lemma attemptSwap_session_inv (index1 index2 : Z) now g :
  session_inv g →
  ∃ r g', attemptSwap index1 index2 now g = Return r g' ∧ session_inv g'.
Proof.
  intros Hinv. pose proof (sinv_base g Hinv) as Hbase.
  destruct (decide (state g = PLAYING)) as [Hpl|Hst].
  2:{ unfold attemptSwap. destruct (decide (state g ≠ PLAYING)); [|done].
      by do 2 eexists. }
  destruct (inv_playing g Hbase Hpl) as (Hcur & d & Halg).
  destruct (lookup_lt_is_Some_2 _ _ Hcur) as [st Hstep].
  destruct (validateMove (Some st) index1 index2) eqn:Hval.
  - destruct (expected_swap index1 index2 g st Hbase Hstep Hval)
      as (x & y & Hx & Hy & Hswap).
    rewrite (attemptSwap_correct_outcome _ _ now g st x y Hpl Hstep Hval Hx Hy).
    cbv zeta. rewrite Hswap. do 2 eexists. split; [done|].
    by apply session_inv_correct_outcome.
  - destruct (attemptSwap_incorrect index1 index2 now g st _ Hpl Hstep Hval Halg)
      as (r & g' & Heq & -> & _).
    exists r. eexists. split; [done|].
    destruct Hinv as [[Hbal Hnum Htr Hplay] Hfresh Hcorr Hstate].
    split; [split|..]; simpl; try done.
    unfold balanced in *. simpl. lia.
Qed.

Lemma selectElement_session_inv index now g :
  session_inv g →
  ∃ r g', selectElement index now g = Return r g' ∧ session_inv g'.
Proof.
  intros Hinv. unfold selectElement.
  destruct (decide (state g ≠ PLAYING)); [eauto|].
  case_decide; [eauto|].
  assert (∀ sel, session_inv (set_selectedIndex sel g)) as Hsel.
  { intros sel. destruct Hinv as [[] ? ? ?]. by split; [split|..]. }
  destruct (selectedIndex g) as [firstIndex|]; [|eauto].
  case_decide; [eauto|].
  by apply attemptSwap_session_inv.
Qed.

Lemma startNewGame_session_inv algorithmKey now draws g g' :
  state_after (startNewGame algorithmKey now draws g) = Some g' →
  session_inv g'.
Proof.
  intros Hafter. pose proof (startNewGame_inv _ _ _ _ _ Hafter) as Hbase.
  destruct (startNewGame algorithmKey now draws g) as [info g1|e g1| |] eqn:Hs;
    simpl in Hafter; simplify_eq.
  - apply startNewGame_returns in Hs
      as (d & sm & Hg & Hfresh & _ & Hgen & _ & _ & _).
    split; [done|..]; rewrite Hg in *; simpl in *; done.
  - revert Hs. unfold startNewGame.
    destruct (match recognized algorithmKey with
              | Some r => Got r draws
              | None => selectRandomAlgorithm draws
              end) as [alg draws1| |]; [|done|done].
    destruct (generateRandomNumbers None 1 20 draws1) as [arr rest| |] eqn:Hgen;
      [|done|done].
    apply generateRandomNumbers_spec in Hgen.
    destruct (generateStepsForAlgorithm (ref_key alg) arr); [done|].
    intros [= <- <-]. split; [done|..]; simpl; done.
Qed.

Lemma reachable_session_inv g : reachable g → session_inv g.
Proof.
  induction 1 as [g key now draws g' Hstart|g index now g' _ IH Hsel].
  - by eapply startNewGame_session_inv.
  - destruct (selectElement_session_inv index now g IH) as (r & g1 & Heq & Hinv).
    rewrite Heq in Hsel. simpl in Hsel. by injection Hsel as <-.
Qed.
End SessionStates.

(** ** What a session guarantees *)

Section SessionGuarantees.
Implicit Types (g : Engine) (now index : Z).

Lemma returned_plan_length (algorithmKey : option string) (arr : list Z)
    (plan : list Step) :
  generateStepsForAlgorithm algorithmKey arr = Returned plan →
  2 * length plan ≤ length arr * (length arr - 1).
Proof.
  unfold generateStepsForAlgorithm, is_case.
  destruct (bubble_run_spec arr) as (_ & Hb & _).
  destruct (selection_run_spec arr) as (_ & Hs & _).
  destruct (insertion_run_spec arr) as (_ & Hi & _).
  repeat case_bool_decide; intros Hret; simplify_eq; try done.
  unfold generateSelectionSortSteps. nia.
Qed.

Lemma session_plan_sorts g :
  plan_of_session g →
  nondecreasing_seq (apply_plan (originalNumbers g) (stepQueue g)).
Proof.
  intros Hplan.
  apply generateStepsForAlgorithm_returned in Hplan as (_ & sm & Hrun & ->).
  by apply run_ok_sorts.
Qed.

(** X4: [isSorted()] is true exactly when the live sequence is in
    non-decreasing order; in particular on an empty and on a one-element
    sequence. *)
Theorem isSorted_decides_order (g : Engine) :
  (isSorted g = true ↔ nondecreasing_seq (numbers g)) ∧
  (length (numbers g) ≤ 1 → isSorted g = true).
Proof.
  split; [apply nondecreasing_true|].
  intros Hlen. apply nondecreasing_true.
  destruct (numbers g) as [|x [|y l]]; simpl in Hlen; [| |lia];
    repeat constructor.
Qed.

(** X5: in every state of a session, [isSorted()] is true exactly when
    the state is completed.  A completed session has its cursor at the end
    of the plan, its live sequence is the original one after the whole
    plan, and its end time is recorded; a session that is not completed
    has no end time.  The paused state is never entered. *)
Theorem completed_iff_sorted (g : Engine) :
  reachable g →
  (isSorted g = true ↔ state g = COMPLETED) ∧
  state g ≠ PAUSED ∧
  (state g = COMPLETED →
     currentStepIndex g = length (stepQueue g) ∧
     numbers g = apply_plan (originalNumbers g) (stepQueue g) ∧
     is_Some (endTime (stats g))) ∧
  (state g ≠ COMPLETED → endTime (stats g) = None).
Proof.
  intros Hreach. apply reachable_session_inv in Hreach
    as [[Hbal Hnum Htr Hplay] Hfresh Hcorr Hstate].
  assert (Hiso : isSorted g = true ↔ nondecreasing_seq (numbers g))
    by apply nondecreasing_true.
  rewrite Hiso.
  destruct (state g) eqn:Hst; [| | |done].
  - destruct Hstate as (Hq & Hc & _ & Hend).
    rewrite Hq, Hc in Hnum. simpl in Hnum.
    split; [|done]. split; [|done]. rewrite Hnum. intros Hs.
    by destruct Hfresh as (_ & _ & _ & _ & Hns).
  - destruct Hstate as (_ & _ & Hend).
    split; [|done]. split; [|done]. intros Hs. exfalso.
    destruct (Hplay eq_refl) as (Hcur & _).
    destruct (lookup_lt_is_Some_2 _ _ Hcur) as [st Hstep].
    destruct (Htr _ _ Hstep) as (_ & Hij & Hi & Hj & Hyx).
    rewrite <- Hnum in Hi, Hj.
    apply read_total in Hi as [Hi1 Hi2]. apply read_total in Hj as [Hj1 Hj2].
    apply adjacent_ordered_Sorted in Hs.
    pose proof (adjacent_ordered_le _ (indices st).1 (indices st).2 Hs
                  ltac:(lia) Hj1).
    lia.
  - destruct Hstate as (Hplan & Hc & _ & Hend).
    rewrite Hc, firstn_all in Hnum.
    split; [|split; [done|split; [done|done]]].
    split; [done|]. intros _. rewrite Hnum. by apply session_plan_sorts.
Qed.

Lemma completed_iff_sorted_witness :
  (isSorted sample_played = true ↔ state sample_played = COMPLETED) ∧
  state sample_played ≠ PAUSED ∧
  (state sample_played = COMPLETED →
     currentStepIndex sample_played = length (stepQueue sample_played) ∧
     numbers sample_played =
       apply_plan (originalNumbers sample_played) (stepQueue sample_played) ∧
     is_Some (endTime (stats sample_played))) ∧
  (state sample_played ≠ COMPLETED → endTime (stats sample_played) = None).
Proof. apply (completed_iff_sorted sample_played sample_played_reachable). Defined.

(** X6: in every state of a session the live sequence is a rearrangement
    of the original snapshot: five to seven distinct values between 1 and
    20. *)
Theorem live_sequence_rearranges (g : Engine) :
  reachable g →
  numbers g ≡ₚ originalNumbers g ∧
  5 ≤ length (numbers g) ∧ length (numbers g) ≤ 7 ∧
  NoDup (numbers g) ∧
  Forall (λ v, 1 ≤ v ≤ 20)%Z (numbers g).
Proof.
  intros Hreach. pose proof (reachable_session_inv g Hreach) as Hinv.
  destruct Hinv as [[Hbal Hnum Htr Hplay] (H5 & H7 & Hnd & Hall & _) _ _].
  assert (numbers g ≡ₚ originalNumbers g) as Hperm
    by (rewrite Hnum; apply apply_plan_Permutation).
  split; [done|]. by rewrite !Hperm.
Qed.

Lemma live_sequence_rearranges_witness :
  numbers sample_missed ≡ₚ originalNumbers sample_missed ∧
  5 ≤ length (numbers sample_missed) ∧ length (numbers sample_missed) ≤ 7 ∧
  NoDup (numbers sample_missed) ∧
  Forall (λ v, 1 ≤ v ≤ 20)%Z (numbers sample_missed).
Proof.
  apply (live_sequence_rearranges sample_missed sample_missed_reachable).
Defined.
End SessionGuarantees.

(** ** What a call never does *)

Section Frame.
Implicit Types (g : Engine) (now index : Z).

#[local] Arguments validateMove : simpl never.
#[local] Arguments getErrorMessage : simpl never.
#[local] Arguments Algorithms.getNextMoveHint : simpl never.
#[local] Arguments read : simpl never.
#[local] Arguments swap_cells : simpl never.
#[local] Arguments nondecreasing : simpl never.

Lemma framed_refl g : framed g g.
Proof. unfold framed. repeat split; auto; lia. Qed.

Lemma attemptSwap_framed (index1 index2 : Z) now g g' :
  state_after (attemptSwap index1 index2 now g) = Some g' → framed g g'.
Proof.
  unfold attemptSwap.
  destruct (decide (state g ≠ PLAYING)) as [Hst|Hst];
    [intros [= <-]; apply framed_refl|].
  simpl.
  destruct (stepQueue g !! currentStepIndex g) as [st|].
  - destruct (validateMove (Some st) index1 index2).
    + destruct (read (numbers g) index1) as [x|]; [|done].
      destruct (read (numbers g) index2) as [y|]; [|done].
      destruct (length (stepQueue g) <=? currentStepIndex g + 1);
        intros [= <-]; unfold framed; simpl; rewrite swap_cells_length;
        repeat split; auto; lia.
    + destruct (currentAlgorithm g); intros [= <-]; unfold framed; simpl;
        repeat split; auto; lia.
  - destruct (isSorted _); intros [= <-]; unfold framed; simpl;
      repeat split; auto; lia.
Qed.

(** A swap attempt on two positions of the live sequence returns, or
    throws, with the engine in a state of the model. *)
Lemma attemptSwap_in_range (index1 index2 : Z) now g :
  (0 ≤ index1 < Z.of_nat (length (numbers g)))%Z →
  (0 ≤ index2 < Z.of_nat (length (numbers g)))%Z →
  is_Some (state_after (attemptSwap index1 index2 now g)).
Proof.
  intros H1 H2. unfold attemptSwap.
  destruct (decide (state g ≠ PLAYING)); [done|]. simpl.
  destruct (stepQueue g !! currentStepIndex g) as [st|];
    [|by destruct (isSorted _)].
  destruct (validateMove (Some st) index1 index2);
    [|by destruct (currentAlgorithm g)].
  assert (∀ i, (0 ≤ i < Z.of_nat (length (numbers g)))%Z →
               is_Some (read (numbers g) i)) as Hread.
  { intros i Hi. unfold read. destruct (Z.ltb_spec i 0); [lia|].
    apply lookup_lt_is_Some_2. lia. }
  destruct (Hread index1 H1) as [x ->], (Hread index2 H2) as [y ->].
  done.
Qed.

(** X7: on an engine whose selected position, if it has one, is a
    position of the live sequence, a call of [selectElement], whether it
    returns or throws, never changes the plan, the original snapshot, the
    algorithm or the start time, and never changes the length of the live
    sequence; the cursor and the three counters never go back and advance
    by one at most; the state stays as it is or becomes completed.  When
    the game is not in the playing state, or the index is not a position
    of the sequence, the call changes nothing at all and reports no
    success. *)
Theorem selectElement_frame (index now : Z) (g : Engine) :
  (∀ firstIndex, selectedIndex g = Some firstIndex →
     (0 ≤ firstIndex < Z.of_nat (length (numbers g)))%Z) →
  ∃ g',
    state_after (selectElement index now g) = Some g' ∧
    framed g g' ∧
    (state g ≠ PLAYING ∨ (index < 0)%Z ∨
     (Z.of_nat (length (numbers g)) ≤ index)%Z →
     g' = g ∧
     ∃ r, selectElement index now g = Return r g ∧ res_success r = false).
Proof.
  intros Hsel. unfold selectElement.
  destruct (decide (state g ≠ PLAYING)) as [Hst|Hst].
  { exists g. split; [done|]. split; [apply framed_refl|]. eauto. }
  case_decide as Hidx.
  { exists g. split; [done|]. split; [apply framed_refl|]. eauto. }
  assert (state g ≠ PLAYING ∨ (index < 0)%Z ∨
          (Z.of_nat (length (numbers g)) ≤ index)%Z → False) as Hin
    by (intros [?|[?|?]]; [done | lia | lia]).
  destruct (selectedIndex g) as [firstIndex|] eqn:Hfirst.
  - case_decide.
    + eexists. split; [reflexivity|].
      split; [exact (framed_refl g) | intros Hout; destruct (Hin Hout)].
    + destruct (attemptSwap_in_range firstIndex index now
                  (set_selectedIndex None g)) as [g' Hg'];
        [apply Hsel; reflexivity | simpl; lia |].
      exists g'. split; [exact Hg'|].
      split; [|intros Hout; destruct (Hin Hout)].
      apply attemptSwap_framed in Hg'. exact Hg'.
  - eexists. split; [reflexivity|].
    split; [exact (framed_refl g) | intros Hout; destruct (Hin Hout)].
Qed.

Lemma selectElement_frame_witness :
  ∃ g',
    state_after
      (selectElement 1 1004 (after (selectElement 0 1003 sample_played)))
    = Some g' ∧
    framed (after (selectElement 0 1003 sample_played)) g' ∧
    (state (after (selectElement 0 1003 sample_played)) ≠ PLAYING ∨
     (1 < 0)%Z ∨
     (Z.of_nat (length (numbers (after (selectElement 0 1003 sample_played))))
      ≤ 1)%Z →
     g' = after (selectElement 0 1003 sample_played) ∧
     ∃ r, selectElement 1 1004 (after (selectElement 0 1003 sample_played))
          = Return r (after (selectElement 0 1003 sample_played)) ∧
          res_success r = false).
Proof.
  apply (selectElement_frame 1 1004 (after (selectElement 0 1003 sample_played))).
  intros firstIndex Hfirst. vm_compute in Hfirst.
  injection Hfirst as <-. vm_compute. split; [discriminate | reflexivity].
Defined.

Lemma selection_round_trip g :
  selectedIndex g = None → set_selectedIndex None g = g.
Proof. destruct g; simpl. by intros ->. Qed.

(** X8: in the playing state, with nothing selected, selecting a position
    and selecting it again gives the engine back exactly as it was: the
    first call reports the selection, the second the deselection, and no
    move is counted. *)
Theorem select_twice_restores (index now1 now2 : Z) (g : Engine) :
  state g = PLAYING →
  selectedIndex g = None →
  (0 ≤ index < Z.of_nat (length (numbers g)))%Z →
  ∃ r1 g1 r2,
    selectElement index now1 g = Return r1 g1 ∧
    res_success r1 = true ∧ res_action r1 = Some "selected" ∧
    res_selectedIndex r1 = Some index ∧
    selectedIndex g1 = Some index ∧
    selectElement index now2 g1 = Return r2 g ∧
    res_success r2 = true ∧ res_action r2 = Some "deselected".
Proof.
  intros Hpl Hsel Hidx.
  unfold selectElement at 1.
  destruct (decide (state g ≠ PLAYING)) as [|_]; [done|].
  case_decide; [lia|]. rewrite Hsel.
  do 3 eexists. split; [reflexivity|]. do 4 (split; [reflexivity|]).
  unfold selectElement.
  destruct (decide (state (set_selectedIndex (Some index) g) ≠ PLAYING))
    as [|_]; [done|].
  case_decide; [simpl in *; lia|]. simpl.
  case_decide; [|done].
  change (set_selectedIndex None (set_selectedIndex (Some index) g))
    with (set_selectedIndex None g).
  rewrite (selection_round_trip g Hsel). eauto.
Qed.

Lemma select_twice_restores_witness :
  ∃ r1 g1 r2,
    selectElement 2 1003 sample_played = Return r1 g1 ∧
    res_success r1 = true ∧ res_action r1 = Some "selected" ∧
    res_selectedIndex r1 = Some 2%Z ∧
    selectedIndex g1 = Some 2%Z ∧
    selectElement 2 1004 g1 = Return r2 sample_played ∧
    res_success r2 = true ∧ res_action r2 = Some "deselected".
Proof.
  apply (select_twice_restores 2 1003 1004 sample_played);
    vm_compute; [reflexivity | reflexivity | split; [discriminate | reflexivity]].
Defined.
End Frame.

(** ** Playing *)

Section Playing.
Implicit Types (g : Engine) (now index : Z).

#[local] Arguments validateMove : simpl never.
#[local] Arguments getErrorMessage : simpl never.
#[local] Arguments Algorithms.getNextMoveHint : simpl never.
#[local] Arguments read : simpl never.
#[local] Arguments swap_cells : simpl never.
#[local] Arguments nondecreasing : simpl never.

(** X9: in every playing state of a session there is an expected step,
    and a swap attempt is judged correct exactly when its two indices are,
    in either order, the positions of that step.  A correct attempt
    applies the step to the live sequence and advances the cursor by one;
    any other attempt leaves both as they are.  The result flags the
    completion exactly when the attempt completes the game. *)
Theorem attempt_correct_iff_expected (g : Engine) :
  reachable g → state g = PLAYING →
  ∃ st,
    getCurrentExpectedStep g = Some st ∧
    ∀ a b now, ∃ r g',
      attemptSwap a b now g = Return r g' ∧
      (res_correct r = Some true ↔
       unordered_pair a b =
       unordered_pair (Z.of_nat (indices st).1) (Z.of_nat (indices st).2)) ∧
      (res_correct r = Some true →
       res_success r = true ∧
       numbers g' = apply_step (numbers g) st ∧
       currentStepIndex g' = currentStepIndex g + 1) ∧
      (res_correct r ≠ Some true →
       res_success r = false ∧
       numbers g' = numbers g ∧
       currentStepIndex g' = currentStepIndex g) ∧
      (res_completed r = Some true ↔ state g' = COMPLETED).
Proof.
  intros Hreach Hpl. pose proof (reachable_inv g Hreach) as Hinv.
  destruct (inv_playing g Hinv Hpl) as (Hcur & d & Halg).
  destruct (lookup_lt_is_Some_2 _ _ Hcur) as [st Hstep].
  exists st. split; [exact Hstep|]. intros a b now.
  assert (validateMove (Some st) a b = true ↔
          unordered_pair a b =
          unordered_pair (Z.of_nat (indices st).1) (Z.of_nat (indices st).2))
    as Hiff by (by rewrite unordered_pair_eq, validateMove_true).
  destruct (validateMove (Some st) a b) eqn:Hval.
  - destruct (expected_swap a b g st Hinv Hstep Hval)
      as (x & y & Hx & Hy & Hswap).
    destruct (attemptSwap_correct a b now g st x y Hpl Hstep Hval Hx Hy)
      as (r & g' & Heq & Hn & Hc & Hst & _ & _ & _ & _ & _ & _ & Hs & Hco
          & Hdone & _).
    exists r, g'. split; [done|]. rewrite Hco, Hn, Hswap, Hdone, Hst.
    split; [by rewrite <- Hiff|]. split; [done|]. split; [done|].
    by destruct (length (stepQueue g) <=? currentStepIndex g + 1).
  - unfold attemptSwap.
    destruct (decide (state g ≠ PLAYING)) as [|_]; [done|].
    simpl. rewrite Hstep. cbv zeta.
    change (validateMove (Some st) a b) with (validateMove (Some st) a b).
    rewrite Hval, Halg. do 2 eexists. split; [reflexivity|]. simpl.
    rewrite Hpl.
    split; [rewrite <- Hiff; split; intros; done|].
    split; [intros; done|]. split; [done|]. split; intros; done.
Qed.

Lemma attempt_correct_iff_expected_witness :
  ∃ st,
    getCurrentExpectedStep sample_played = Some st ∧
    ∀ a b now, ∃ r g',
      attemptSwap a b now sample_played = Return r g' ∧
      (res_correct r = Some true ↔
       unordered_pair a b =
       unordered_pair (Z.of_nat (indices st).1) (Z.of_nat (indices st).2)) ∧
      (res_correct r = Some true →
       res_success r = true ∧
       numbers g' = apply_step (numbers sample_played) st ∧
       currentStepIndex g' = currentStepIndex sample_played + 1) ∧
      (res_correct r ≠ Some true →
       res_success r = false ∧
       numbers g' = numbers sample_played ∧
       currentStepIndex g' = currentStepIndex sample_played) ∧
      (res_completed r = Some true ↔ state g' = COMPLETED).
Proof.
  apply (attempt_correct_iff_expected sample_played sample_played_reachable).
  vm_compute. reflexivity.
Defined.

(** X10: in every state of a session the progress counts the correct
    moves: [completed] is [correctMoves], it never exceeds [total], and
    [remaining] is the difference.  Moves remain while the session is in
    the playing state and none when it is completed, and no game has more
    than 21 steps. *)
Theorem progress_counts_correct_moves (g : Engine) :
  reachable g →
  completed (getProgress g) = correctMoves (stats g) ∧
  completed (getProgress g) ≤ total (getProgress g) ∧
  remaining (getProgress g) =
    Z.of_nat (total (getProgress g) - completed (getProgress g)) ∧
  (state g = PLAYING → (0 < remaining (getProgress g))%Z) ∧
  (state g = COMPLETED → remaining (getProgress g) = 0%Z) ∧
  total (getProgress g) ≤ 21.
Proof.
  intros Hreach. apply reachable_session_inv in Hreach
    as [[Hbal Hnum Htr Hplay] (H5 & H7 & _) Hcorr Hstate].
  unfold getProgress; simpl.
  assert (state g ≠ IDLE → plan_of_session g) as Hplan.
  { destruct (state g); try done; intros _; apply Hstate. }
  assert (length (stepQueue g) ≤ 21) as Hmax.
  { destruct (decide (state g = IDLE)) as [Hidle|Hne].
    - rewrite Hidle in Hstate. destruct Hstate as (-> & _). simpl. lia.
    - apply Hplan, returned_plan_length in Hne. nia. }
  assert (currentStepIndex g ≤ length (stepQueue g)) as Hle.
  { destruct (state g) eqn:Hst; [| | |done].
    - destruct Hstate as (-> & -> & _). done.
    - destruct (Hplay eq_refl). lia.
    - destruct Hstate as (_ & -> & _). done. }
  split; [done|]. split; [done|]. split; [lia|].
  split; [intros Hpl; destruct (Hplay Hpl); lia|].
  split; [|done]. intros Hco. rewrite Hco in Hstate.
  destruct Hstate as (_ & -> & _). lia.
Qed.

Lemma progress_counts_correct_moves_witness :
  completed (getProgress sample_missed) = correctMoves (stats sample_missed) ∧
  completed (getProgress sample_missed) ≤ total (getProgress sample_missed) ∧
  remaining (getProgress sample_missed) =
    Z.of_nat (total (getProgress sample_missed)
              - completed (getProgress sample_missed)) ∧
  (state sample_missed = PLAYING → (0 < remaining (getProgress sample_missed))%Z) ∧
  (state sample_missed = COMPLETED → remaining (getProgress sample_missed) = 0%Z) ∧
  total (getProgress sample_missed) ≤ 21.
Proof.
  apply (progress_counts_correct_moves sample_missed sample_missed_reachable).
Defined.
End Playing.

(** ** Following the hints *)

Section FollowingHints.
Implicit Types (g : Engine) (now index : Z) (times : list Z).

#[local] Arguments validateMove : simpl never.
#[local] Arguments getErrorMessage : simpl never.
#[local] Arguments Algorithms.getNextMoveHint : simpl never.
#[local] Arguments read : simpl never.
#[local] Arguments swap_cells : simpl never.
#[local] Arguments nondecreasing : simpl never.
#[local] Arguments attemptSwap : simpl never.

(** Clicking the two positions of the expected step is the correct swap. *)
Lemma follow_round now g st :
  engine_inv g → state g = PLAYING → selectedIndex g = None →
  stepQueue g !! currentStepIndex g = Some st →
  ∃ g1,
    state_after (selectElement (Z.of_nat (indices st).1) now g) = Some g1 ∧
    state_after (selectElement (Z.of_nat (indices st).2) now g1)
    = Some (correct_outcome now (apply_step (numbers g) st) g).
Proof.
  intros Hinv Hpl Hsel Hstep.
  destruct (inv_trace g Hinv _ _ Hstep) as (_ & Hij & Hi & Hj & _).
  rewrite <- (inv_numbers g Hinv) in Hi, Hj.
  pose proof (lookup_lt_Some _ _ _ Hi) as Hilen.
  pose proof (lookup_lt_Some _ _ _ Hj) as Hjlen.
  exists (set_selectedIndex (Some (Z.of_nat (indices st).1)) g). split.
  - unfold selectElement.
    destruct (decide (state g ≠ PLAYING)) as [|_]; [done|].
    case_decide; [lia|]. by rewrite Hsel.
  - unfold selectElement.
    destruct (decide (state (set_selectedIndex
                (Some (Z.of_nat (indices st).1)) g) ≠ PLAYING)) as [|_]; [done|].
    case_decide; [simpl in *; lia|]. simpl selectedIndex. cbv iota.
    case_decide; [lia|].
    change (set_selectedIndex None
              (set_selectedIndex (Some (Z.of_nat (indices st).1)) g))
      with (set_selectedIndex None g).
    rewrite (selection_round_trip g Hsel).
    assert (validateMove (Some st) (Z.of_nat (indices st).1)
              (Z.of_nat (indices st).2) = true) as Hval
      by (apply validateMove_true; by left).
    destruct (expected_swap _ _ g st Hinv Hstep Hval)
      as (x & y & Hx & Hy & Hswap).
    rewrite (attemptSwap_correct_outcome _ _ now g st x y Hpl Hstep Hval Hx Hy).
    cbv zeta. simpl. by rewrite Hswap.
Qed.

Lemma follow_hints_spec times g :
  session_inv g → state g = PLAYING → selectedIndex g = None →
  length times ≤ length (stepQueue g) - currentStepIndex g →
  ∃ g',
    follow_hints times g = Some g' ∧ session_inv g' ∧
    stepQueue g' = stepQueue g ∧
    originalNumbers g' = originalNumbers g ∧
    currentStepIndex g' = currentStepIndex g + length times ∧
    totalMoves (stats g') = totalMoves (stats g) + length times ∧
    incorrectMoves (stats g') = incorrectMoves (stats g) ∧
    (state g' = COMPLETED → endTime (stats g') = last times).
Proof.
  revert g. induction times as [|now times IH]; intros g Hinv Hpl Hsel Hlen.
  - exists g. simpl. rewrite Hpl.
    split; [done|]. split; [done|]. split; [done|]. split; [done|].
    split; [lia|]. split; [lia|]. split; [done|]. done.
  - simpl in Hlen.
    pose proof (sinv_base g Hinv) as Hbase.
    assert (currentStepIndex g < length (stepQueue g)) as Hcur by lia.
    destruct (lookup_lt_is_Some_2 _ _ Hcur) as [st Hstep].
    destruct (follow_round now g st Hbase Hpl Hsel Hstep) as (g1 & H1 & H2).
    pose proof (session_inv_correct_outcome now g st Hinv Hpl Hstep) as Hinv2.
    simpl follow_hints. unfold getCurrentExpectedStep.
    rewrite Hstep, H1, H2.
    set (g2 := correct_outcome now (apply_step (numbers g) st) g) in *.
    assert (stepQueue g2 = stepQueue g ∧
            originalNumbers g2 = originalNumbers g ∧
            currentStepIndex g2 = currentStepIndex g + 1 ∧
            totalMoves (stats g2) = totalMoves (stats g) + 1 ∧
            incorrectMoves (stats g2) = incorrectMoves (stats g) ∧
            selectedIndex g2 = None ∧
            (state g2 = COMPLETED → endTime (stats g2) = Some now) ∧
            (currentStepIndex g + 1 < length (stepQueue g) →
             state g2 = PLAYING)) as (Hq & Ho & Hc & Ht & Hi & Hs & He & Hp).
    { subst g2. unfold correct_outcome.
      destruct (Nat.leb_spec (length (stepQueue g)) (currentStepIndex g + 1));
        simpl; repeat split; try done; try lia.
      rewrite Hpl. done. }
    destruct times as [|now' times].
    + exists g2. simpl.
      split; [done|]. split; [done|]. split; [done|]. split; [done|].
      split; [lia|]. split; [lia|]. split; [done|]. done.
    + simpl in Hlen.
      destruct (IH g2 Hinv2 ltac:(apply Hp; lia) Hs
                  ltac:(rewrite Hq, Hc; simpl; lia))
        as (g' & Hf & Hinv' & Hq' & Ho' & Hc' & Ht' & Hi' & He').
      exists g'. split; [exact Hf|]. split; [done|].
      rewrite Hq', Ho', Hc', Ht', Hi', Hq, Ho, Hc, Ht, Hi.
      simpl length.
      split; [done|]. split; [done|]. split; [lia|]. split; [lia|].
      split; [done|]. done.
Qed.

(** X11: a player who, from the start of a game, always clicks the two
    positions of the expected step makes only correct moves: after as many
    rounds as wanted, up to the length of the plan, the cursor and both
    counters equal the number of rounds and no move is incorrect.  After
    exactly as many rounds as the plan has steps the game is completed,
    at the time of the last round: the live sequence is the original one
    in non-decreasing order; before that the game is still being played. *)
Theorem following_hints_completes (algorithmKey : option string)
    (now : Z) (draws : list nat) (g g0 : Engine) (info : GameInfo)
    (times : list Z) :
  startNewGame algorithmKey now draws g = Return info g0 →
  length times ≤ info_totalSteps info →
  ∃ g',
    follow_hints times g0 = Some g' ∧
    currentStepIndex g' = length times ∧
    totalMoves (stats g') = length times ∧
    correctMoves (stats g') = length times ∧
    incorrectMoves (stats g') = 0 ∧
    (length times < info_totalSteps info → state g' = PLAYING) ∧
    (length times = info_totalSteps info →
     state g' = COMPLETED ∧
     isSorted g' = true ∧
     numbers g' ≡ₚ numbers g0 ∧
     numbers g' = apply_plan (numbers g0) (stepQueue g0) ∧
     endTime (stats g') = last times).
Proof.
  intros Hstart Hlen.
  assert (session_inv g0) as Hinv
    by (apply (startNewGame_session_inv algorithmKey now draws g);
        by rewrite Hstart).
  apply startNewGame_returns in Hstart
    as (d & sm & Hg0 & _ & _ & _ & _ & Hne & Htotal).
  assert (state g0 = PLAYING ∧ selectedIndex g0 = None ∧
          currentStepIndex g0 = 0 ∧ stepQueue g0 = steps sm ∧
          originalNumbers g0 = numbers g0 ∧
          totalMoves (stats g0) = 0 ∧ incorrectMoves (stats g0) = 0)
    as (Hpl & Hsel & Hc0 & Hq0 & Ho0 & Ht0 & Hi0) by (by rewrite Hg0).
  destruct (follow_hints_spec times g0 Hinv Hpl Hsel
              ltac:(rewrite Hq0, Hc0; lia))
    as (g' & Hf & Hinv' & Hq & Ho & Hc & Ht & Hi & He).
  exists g'. split; [exact Hf|].
  rewrite Hc0 in Hc. rewrite Ht0 in Ht. rewrite Hi0 in Hi. simpl in Hc, Ht.
  split; [done|]. split; [done|].
  split; [rewrite (sinv_correct g' Hinv'); done|]. split; [done|].
  pose proof (sinv_state g' Hinv') as Hstate.
  pose proof (inv_playing g' (sinv_base g' Hinv')) as Hplay.
  pose proof (inv_numbers g' (sinv_base g' Hinv')) as Hnum.
  rewrite Hq, Ho, Hq0, Ho0 in *. rewrite Htotal in *. split.
  - intros Hlt. destruct (state g'); [| done | | done].
    + destruct Hstate as (Hnil & _). rewrite Hnil in Hlt. simpl in Hlt. lia.
    + destruct Hstate as (_ & Hend & _). lia.
  - intros Heq.
    assert (state g' = COMPLETED) as Hco.
    { destruct (state g'); [| | done | done].
      - destruct Hstate as (Hnil & _). by rewrite Hnil in Hne.
      - destruct (Hplay eq_refl). lia. }
    split; [done|].
    rewrite Hc, Heq, firstn_all in Hnum.
    split; [|split; [rewrite Hnum; apply apply_plan_Permutation|split; [done|auto]]].
    apply nondecreasing_true. unfold isSorted. rewrite Hnum.
    rewrite Hco in Hstate. destruct Hstate as (Hplan & _).
    apply session_plan_sorts in Hplan. by rewrite Hq, Ho in Hplan.
Qed.

Lemma following_hints_completes_witness :
  ∃ g',
    follow_hints [1001; 1002; 1003; 1004; 1005]%Z sample_game = Some g' ∧
    currentStepIndex g' = 5 ∧
    totalMoves (stats g') = 5 ∧
    correctMoves (stats g') = 5 ∧
    incorrectMoves (stats g') = 0 ∧
    (5 < 5 → state g' = PLAYING) ∧
    (5 = 5 →
     state g' = COMPLETED ∧
     isSorted g' = true ∧
     numbers g' ≡ₚ numbers sample_game ∧
     numbers g' = apply_plan (numbers sample_game) (stepQueue sample_game) ∧
     endTime (stats g') = Some 1005%Z).
Proof.
  apply (following_hints_completes None 1000 sample_draws new_GameEngine
           sample_game
           {| info_numbers := numbers sample_game;
              info_algorithm := currentAlgorithm sample_game;
              info_totalSteps := 5;
              info_firstHint := getNextMoveHint sample_game |}
           [1001; 1002; 1003; 1004; 1005]%Z).
  - vm_compute. reflexivity.
  - simpl. lia.
Defined.
End FollowingHints.

(** ** Starting a game *)

Section Starting.
Implicit Types (g : Engine) (now : Z) (draws : list nat).

#[local] Arguments generateStepsForAlgorithm : simpl never.
#[local] Arguments generateRandomNumbers : simpl never.
#[local] Arguments Algorithms.getNextMoveHint : simpl never.

Lemma recognized_supported (k : string) :
  k ∈ ALGORITHMS_keys →
  ∃ d, ALGORITHMS k = Descriptor d ∧ key d = k ∧
       recognized (Some k) = Some (Descriptor d).
Proof.
  intros Hk. apply list_elem_of_In in Hk. simpl in Hk.
  destruct Hk as [<-|[<-|[<-|[]]]]; eexists; by vm_compute.
Qed.

Lemma recognized_inherited (k : string) :
  k ∈ object_prototype_names →
  ALGORITHMS k = Inherited k ∧ recognized (Some k) = Some (Inherited k).
Proof.
  intros Hk. apply list_elem_of_In in Hk. simpl in Hk.
  repeat (destruct Hk as [<-|Hk]; [by vm_compute|]). done.
Qed.

(** [startNewGame] once the algorithm is chosen by its key. *)
Lemma startNewGame_recognized algorithmKey alg now draws g :
  recognized algorithmKey = Some alg →
  startNewGame algorithmKey now draws g =
  match generateRandomNumbers None 1 20 draws with
  | Got arr _ =>
      match generateStepsForAlgorithm (ref_key alg) arr with
      | Returned queue =>
          Return {| info_numbers := arr;
                    info_algorithm := Some alg;
                    info_totalSteps := length queue;
                    info_firstHint :=
                      Algorithms.getNextMoveHint (ref_key alg) (queue !! 0) |}
                 {| state := PLAYING; numbers := arr; originalNumbers := arr;
                    currentAlgorithm := Some alg; stepQueue := queue;
                    currentStepIndex := 0; selectedIndex := None;
                    stats := {| totalMoves := 0; correctMoves := 0;
                                incorrectMoves := 0; startTime := Some now;
                                endTime := None |} |}
      | Thrown msg =>
          Throw (Error msg)
                {| state := IDLE; numbers := arr; originalNumbers := arr;
                   currentAlgorithm := Some alg; stepQueue := [];
                   currentStepIndex := 0; selectedIndex := None;
                   stats := {| totalMoves := 0; correctMoves := 0;
                               incorrectMoves := 0; startTime := None;
                               endTime := None |} |}
      end
  | NoMoreDraws => OutOfDraws
  | UndefinedCell => Unmodelled
  end.
Proof.
  intros Hrec. unfold startNewGame. rewrite Hrec.
  destruct (generateRandomNumbers None 1 20 draws) as [arr rest| |];
    [|done|done].
  by destruct (generateStepsForAlgorithm (ref_key alg) arr).
Qed.

Lemma ALGORITHMS_descriptor (k : string) (d : AlgorithmInfo) :
  ALGORITHMS k = Descriptor d → k ∈ ALGORITHMS_keys ∧ key d = k.
Proof.
  unfold ALGORITHMS. repeat case_decide; try done; intros [= <-]; subst;
    (split; [apply list_elem_of_In; simpl; tauto | done]).
Qed.

Lemma recognized_Some (algorithmKey : option string) (alg : AlgorithmRef) :
  recognized algorithmKey = Some alg →
  ∃ k, algorithmKey = Some k ∧ alg = ALGORITHMS k.
Proof.
  unfold recognized. destruct algorithmKey as [k|]; [|done].
  case_decide; [done|]. destruct (truthy (ALGORITHMS k)); [|done].
  intros [= <-]. eauto.
Qed.

(** What [startNewGame] returns describes the state it leaves. *)
Lemma startNewGame_info algorithmKey now draws g info g' :
  startNewGame algorithmKey now draws g = Return info g' →
  info = {| info_numbers := numbers g';
            info_algorithm := currentAlgorithm g';
            info_totalSteps := length (stepQueue g');
            info_firstHint := getNextMoveHint g' |}.
Proof.
  unfold startNewGame. repeat case_match; try done; by intros [= <- <-].
Qed.

(** The algorithm of the game that [startNewGame] returns. *)
Lemma startNewGame_algorithm algorithmKey now draws g info g' :
  startNewGame algorithmKey now draws g = Return info g' →
  ∃ k, k ∈ ALGORITHMS_keys ∧ currentAlgorithm g' = Some (ALGORITHMS k) ∧
       currentKey g' = Some k ∧
       ∀ k', algorithmKey = Some k' → k' ∈ ALGORITHMS_keys → k' = k.
Proof.
  intros Hstart.
  destruct (recognized algorithmKey) as [alg|] eqn:Hrec.
  - rewrite (startNewGame_recognized _ _ now draws g Hrec) in Hstart.
    destruct (generateRandomNumbers None 1 20 draws) as [arr rest| |];
      [|done|done].
    destruct (generateStepsForAlgorithm (ref_key alg) arr) as [queue|] eqn:Hq;
      [|done].
    injection Hstart as _ <-.
    apply generateStepsForAlgorithm_returned in Hq as (Hkey & _).
    destruct (recognized_Some _ _ Hrec) as (k & -> & ->).
    destruct (ALGORITHMS k) as [d| |] eqn:Hk; simpl in Hkey;
      [|exfalso; apply list_elem_of_In in Hkey; simpl in Hkey;
        intuition discriminate..].
    apply ALGORITHMS_descriptor in Hk as Hd. destruct Hd as [Hin Hkd].
    exists k. unfold currentKey. simpl. rewrite Hkd.
    split; [done|]. split; [by rewrite Hk|]. split; [done|].
    by intros k' [= ->] _.
  - revert Hstart. unfold startNewGame. rewrite Hrec.
    destruct (selectRandomAlgorithm draws) as [alg draws1| |] eqn:Hsel;
      [|done|done].
    destruct (generateRandomNumbers None 1 20 draws1) as [arr rest| |];
      [|done|done].
    destruct (generateStepsForAlgorithm (ref_key alg) arr); [|done].
    intros [= _ <-]. unfold currentKey. simpl.
    assert (∀ k', algorithmKey = Some k' → k' ∈ ALGORITHMS_keys → False)
      as Hno.
    { intros k' -> Hk'. destruct (recognized_supported k' Hk') as (? & _ & _ & ?).
      congruence. }
    apply selectRandomAlgorithm_spec in Hsel as [-> | [-> | ->]];
      [exists "bubble" | exists "selection" | exists "insertion"];
      (split; [apply list_elem_of_In; simpl; tauto|]);
      (split; [done|]); (split; [done|]);
      intros k' Hk' Hin; destruct (Hno k' Hk' Hin).
Qed.

(** X12: a game that [startNewGame] returns is in the playing state at
    cursor 0, with nothing selected, zeroed counters, the call time as
    start time and no end time; its live sequence is a copy of the
    original one; its plan, which has a first step, is the plan that its
    algorithm, one of the three, generates for that sequence.  The
    returned record shows the sequence, the algorithm, the number of steps
    and the hint for the first step.  Called with one of the three keys,
    [startNewGame] uses that algorithm. *)
Theorem new_game_state (algorithmKey : option string) (now : Z)
    (draws : list nat) (g g' : Engine) (info : GameInfo) :
  startNewGame algorithmKey now draws g = Return info g' →
  state g' = PLAYING ∧ currentStepIndex g' = 0 ∧ selectedIndex g' = None ∧
  stats g' = {| totalMoves := 0; correctMoves := 0; incorrectMoves := 0;
                startTime := Some now; endTime := None |} ∧
  originalNumbers g' = numbers g' ∧
  (∃ k, k ∈ ALGORITHMS_keys ∧ currentKey g' = Some k ∧
        currentAlgorithm g' = Some (ALGORITHMS k) ∧
        ∀ k', algorithmKey = Some k' → k' ∈ ALGORITHMS_keys → k' = k) ∧
  plan_of_session g' ∧
  is_Some (stepQueue g' !! 0) ∧
  info_numbers info = numbers g' ∧
  info_algorithm info = currentAlgorithm g' ∧
  info_totalSteps info = length (stepQueue g') ∧
  info_firstHint info =
    Algorithms.getNextMoveHint (currentKey g') (stepQueue g' !! 0).
Proof.
  intros Hstart.
  destruct (startNewGame_algorithm _ _ _ _ _ _ Hstart)
    as (k & Hk & Halg & Hkey & Hsame).
  rewrite (startNewGame_info _ _ _ _ _ _ Hstart). simpl.
  assert (session_inv g') as Hinv
    by (apply (startNewGame_session_inv algorithmKey now draws g);
        by rewrite Hstart).
  apply startNewGame_returns in Hstart
    as (d & sm & Hg & _ & _ & _ & _ & Hne & _).
  assert (state g' = PLAYING ∧ currentStepIndex g' = 0 ∧
          selectedIndex g' = None ∧
          stats g' = {| totalMoves := 0; correctMoves := 0;
                        incorrectMoves := 0; startTime := Some now;
                        endTime := None |} ∧
          originalNumbers g' = numbers g' ∧ stepQueue g' = steps sm)
    as (Hpl & Hc & Hsel & Hstats & Ho & Hq) by (by rewrite Hg).
  do 5 (split; [done|]).
  split; [exists k; done|].
  split; [pose proof (sinv_state g' Hinv) as Hst; rewrite Hpl in Hst;
          apply Hst|].
  split; [rewrite Hq; apply lookup_lt_is_Some_2;
          destruct (steps sm); simpl; [done | lia]|].
  do 3 (split; [done|]).
  unfold getNextMoveHint. by rewrite Hc.
Qed.

Lemma new_game_state_witness :
  state sample_game = PLAYING ∧ currentStepIndex sample_game = 0 ∧
  selectedIndex sample_game = None ∧
  stats sample_game =
    {| totalMoves := 0; correctMoves := 0; incorrectMoves := 0;
       startTime := Some 1000%Z; endTime := None |} ∧
  originalNumbers sample_game = numbers sample_game ∧
  (∃ k, k ∈ ALGORITHMS_keys ∧ currentKey sample_game = Some k ∧
        currentAlgorithm sample_game = Some (ALGORITHMS k) ∧
        ∀ k', None = Some k' → k' ∈ ALGORITHMS_keys → k' = k) ∧
  plan_of_session sample_game ∧
  is_Some (stepQueue sample_game !! 0) ∧
  numbers sample_game = numbers sample_game ∧
  currentAlgorithm sample_game = currentAlgorithm sample_game ∧
  length (stepQueue sample_game) = length (stepQueue sample_game) ∧
  getNextMoveHint sample_game =
    Algorithms.getNextMoveHint (currentKey sample_game)
      (stepQueue sample_game !! 0).
Proof.
  apply (new_game_state None 1000 sample_draws new_GameEngine sample_game
           {| info_numbers := numbers sample_game;
              info_algorithm := currentAlgorithm sample_game;
              info_totalSteps := length (stepQueue sample_game);
              info_firstHint := getNextMoveHint sample_game |}).
  vm_compute. reflexivity.
Defined.

Lemma ALGORITHMS_inherited (k k0 : string) :
  ALGORITHMS k = Inherited k0 → k0 = k ∧ k ∈ object_prototype_names.
Proof. unfold ALGORITHMS. repeat case_decide; try done. by intros [= <-]. Qed.

(** X13: [startNewGame] throws only when its key names a member that
    [ALGORITHMS] inherits from [Object.prototype] (such as "toString"):
    the error is "Algoritm necunoscut: undefined", and by then the prior
    session is gone: the engine is idle, with an empty plan, zeroed
    statistics and a fresh sequence.  On such a key [startNewGame] never
    returns a game, and [changeAlgorithm], whose guard the key passes,
    does the same as [startNewGame]. *)
Theorem startNewGame_throws_on_inherited_name :
  (∀ algorithmKey now draws g e g',
     startNewGame algorithmKey now draws g = Throw e g' →
     ∃ k, algorithmKey = Some k ∧ k ∈ object_prototype_names ∧
          e = Error "Algoritm necunoscut: undefined" ∧
          state g' = IDLE ∧ stepQueue g' = [] ∧ currentStepIndex g' = 0 ∧
          selectedIndex g' = None ∧
          stats g' = stats new_GameEngine ∧
          currentAlgorithm g' = Some (Inherited k) ∧
          originalNumbers g' = numbers g' ∧
          fresh_sequence (numbers g')) ∧
  (∀ k now draws g,
     k ∈ object_prototype_names →
     (∀ info g', startNewGame (Some k) now draws g ≠ Return info g') ∧
     changeAlgorithm (Some k) now draws g = startNewGame (Some k) now draws g).
Proof.
  split.
  - intros algorithmKey now draws g e g' Hstart.
    destruct (recognized algorithmKey) as [alg|] eqn:Hrec.
    + rewrite (startNewGame_recognized _ _ now draws g Hrec) in Hstart.
      destruct (generateRandomNumbers None 1 20 draws) as [arr rest| |] eqn:Hgen;
        [|done|done].
      apply generateRandomNumbers_spec in Hgen.
      destruct (recognized_Some _ _ Hrec) as (k & -> & ->).
      assert (truthy (ALGORITHMS k) = true) as Htruthy.
      { revert Hrec. unfold recognized. case_decide; [done|].
        by destruct (truthy (ALGORITHMS k)). }
      destruct (ALGORITHMS k) as [d|k0|] eqn:Hk; [| |done].
      * apply ALGORITHMS_descriptor in Hk as [Hin Hkd]. simpl in Hstart.
        rewrite Hkd in Hstart.
        by destruct (generateStepsForAlgorithm_supported arr k Hin) as [plan Hp];
          rewrite Hp in Hstart.
      * apply ALGORITHMS_inherited in Hk as [-> Hin]. simpl in Hstart.
        change (generateStepsForAlgorithm None arr)
          with (@Thrown (list Step) "Algoritm necunoscut: undefined") in Hstart.
        injection Hstart as <- <-. exists k. simpl. done.
    + exfalso. revert Hstart. unfold startNewGame. rewrite Hrec.
      destruct (selectRandomAlgorithm draws) as [alg draws1| |] eqn:Hsel;
        [|done|done].
      destruct (generateRandomNumbers None 1 20 draws1) as [arr rest| |];
        [|done|done].
      by apply selectRandomAlgorithm_spec in Hsel as [-> | [-> | ->]].
  - intros k now draws g Hk.
    destruct (recognized_inherited k Hk) as [Hak Hrec]. split.
    + intros info g'.
      rewrite (startNewGame_recognized _ _ now draws g Hrec).
      by destruct (generateRandomNumbers None 1 20 draws).
    + unfold changeAlgorithm. simpl. by rewrite Hak.
Qed.

Lemma startNewGame_throws_on_inherited_name_witness :
  (∀ info g',
     startNewGame (Some "toString") 2000 sample_draws sample_played
     ≠ Return info g') ∧
  changeAlgorithm (Some "toString") 2000 sample_draws sample_played =
  startNewGame (Some "toString") 2000 sample_draws sample_played.
Proof.
  apply (proj2 startNewGame_throws_on_inherited_name
           "toString" 2000%Z sample_draws sample_played).
  apply list_elem_of_In. simpl. tauto.
Defined.
End Starting.

(** ** Random sequences of a given size *)

Section RandomCount.
Implicit Types (arr numbers : list Z) (draws rest : list nat) (min max : Z).

Lemma Forall_read (P : Z → Prop) arr k :
  Forall P arr → k < length arr → P (arr !!! k).
Proof.
  intros Hall Hk. apply (proj1 (Forall_lookup _ arr) Hall k).
  by apply read_in_range.
Qed.

Lemma fill_numbers_range numCount min max numbers draws arr rest :
  (min ≤ max)%Z →
  fill_numbers numCount min max numbers draws = Got arr rest →
  NoDup numbers → length numbers ≤ numCount →
  Forall (λ v, min ≤ v ≤ max)%Z numbers →
  NoDup arr ∧ length arr = numCount ∧ Forall (λ v, min ≤ v ≤ max)%Z arr.
Proof.
  intros Hrange. revert numbers.
  induction draws as [|d draws IH]; intros numbers; simpl.
  - case_decide; [done|]. intros [= <- <-] ???. split; [done|]. split; [lia|done].
  - case_decide.
    + intros Hfill Hnd Hlen Hall.
      destruct (set_add_spec (Z.of_nat d `mod` (max - min + 1) + min) numbers Hnd)
        as [Hnd' Hlen'].
      apply (IH _ Hfill Hnd'); [lia|].
      apply set_add_Forall; [done|].
      pose proof (Z.mod_pos_bound (Z.of_nat d) (max - min + 1)). lia.
    + intros [= <- <-] ???. split; [done|]. split; [lia|done].
Qed.

Lemma shuffle_keeps (P : Z → Prop) i arr draws arr' rest :
  shuffle i arr draws = Got arr' rest →
  i < length arr → NoDup arr → Forall P arr →
  NoDup arr' ∧ length arr' = length arr ∧ Forall P arr'.
Proof.
  revert arr draws. induction i as [|i IH]; intros arr draws.
  - simpl. intros [= <- <-]. done.
  - destruct draws as [|d draws]; [done|].
    rewrite shuffle_step.
    intros Hsh Hi Hnd Hall.
    set (j := random_below (Datatypes.S i + 1) d) in *.
    assert (j < length arr) as Hj.
    { subst j. unfold random_below.
      pose proof (Nat.mod_upper_bound d (Datatypes.S i + 1)). lia. }
    rewrite (read_in_range arr (Datatypes.S i)), (read_in_range arr j)
      in Hsh by done.
    apply IH in Hsh as (? & Hlen & ?).
    + rewrite swap_cells_length in Hlen. done.
    + rewrite swap_cells_length. lia.
    + by apply swap_cells_NoDup.
    + apply swap_cells_Forall; [done | |]; by apply Forall_read.
Qed.

(** Distinct values of a range are no more than the range holds. *)
Lemma distinct_in_range min max arr :
  NoDup arr → Forall (λ v, min ≤ v ≤ max)%Z arr →
  (Z.of_nat (length arr) ≤ Z.max 0 (max - min + 1))%Z.
Proof.
  intros Hnd Hall.
  assert (length arr ≤ length (seqZ min (max - min + 1))) as Hlen.
  { apply submseteq_length, NoDup_submseteq; [done|].
    intros x Hx. apply elem_of_seqZ.
    apply (proj1 (Forall_forall _ _) Hall) in Hx. lia. }
  rewrite length_seqZ in Hlen. lia.
Qed.

(** X14: called with a count of at least 2 on a range [min .. max],
    [generateRandomNumbers], when it returns, returns exactly [count]
    distinct values of the range, not in non-decreasing order; so it can
    only return when the range holds at least [count] values. *)
Theorem generateRandomNumbers_with_count (count : nat) (min max : Z)
    (draws rest : list nat) (arr : list Z) :
  2 ≤ count → (min ≤ max)%Z →
  generateRandomNumbers (Some count) min max draws = Got arr rest →
  length arr = count ∧ NoDup arr ∧
  Forall (λ v, min ≤ v ≤ max)%Z arr ∧
  ¬ nondecreasing_seq arr ∧
  (Z.of_nat count ≤ max - min + 1)%Z.
Proof.
  intros Hcount Hrange. unfold generateRandomNumbers.
  destruct count as [|c]; [lia|].
  destruct (fill_numbers (Datatypes.S c) min max [] draws)
    as [a1 draws1| |] eqn:Hfill; [|done|done].
  apply (fill_numbers_range _ _ _ _ _ _ _ Hrange) in Hfill
    as (Hnd1 & Hlen1 & Hall1); [|apply NoDup_nil_2 | simpl; lia | done].
  destruct (shuffle (length a1 - 1) a1 draws1) as [a2 draws2| |] eqn:Hsh;
    [|done|done].
  apply (shuffle_keeps (λ v, min ≤ v ≤ max)%Z) in Hsh
    as (Hnd2 & Hlen2 & Hall2); [|lia|done|done].
  assert (∀ a, NoDup a → length a = Datatypes.S c →
               Forall (λ v, min ≤ v ≤ max)%Z a →
               (Z.of_nat (Datatypes.S c) ≤ max - min + 1)%Z) as Hfits.
  { intros a Hnd Hlen Hall.
    pose proof (distinct_in_range min max a Hnd Hall). lia. }
  destruct (nondecreasing a2) eqn:Hsorted.
  - apply nondecreasing_true in Hsorted.
    rewrite (read_in_range a2 0), (read_in_range a2 1) by lia.
    intros [= <- <-]. rewrite swap_cells_length.
    split; [lia|]. split; [apply swap_cells_NoDup; auto; lia|].
    split; [apply swap_cells_Forall; [done | |]; apply Forall_read; [done|lia|done|lia]|].
    split; [|apply (Hfits a2); [done | lia | done]].
    unfold nondecreasing_seq in *. rewrite <- adjacent_ordered_Sorted in *.
    intros Hswapped.
    specialize (Hswapped 0). rewrite swap_cells_length in Hswapped.
    specialize (Hswapped ltac:(lia)). specialize (Hsorted 0 ltac:(lia)).
    simpl in Hswapped, Hsorted.
    rewrite !swap_cells_read in Hswapped by lia. simpl in Hswapped.
    assert (a2 !!! 0 = a2 !!! 1) as Heq by lia.
    apply NoDup_read in Heq; [lia | done | lia | lia].
  - intros [= <- <-].
    split; [lia|]. split; [done|]. split; [done|].
    split; [|apply (Hfits a2); [done | lia | done]].
    rewrite <- nondecreasing_true. by rewrite Hsorted.
Qed.

Lemma generateRandomNumbers_with_count_witness :
  length [13; 14; 12]%Z = 3 ∧ NoDup [13; 14; 12]%Z ∧
  Forall (λ v, 10 ≤ v ≤ 15)%Z [13; 14; 12]%Z ∧
  ¬ nondecreasing_seq [13; 14; 12]%Z ∧
  (Z.of_nat 3 ≤ 15 - 10 + 1)%Z.
Proof.
  apply (generateRandomNumbers_with_count 3 10 15 [2; 3; 4; 0; 0] [] [13; 14; 12]%Z).
  - lia.
  - lia.
  - vm_compute. reflexivity.
Defined.

(** X15: the two sizes [generateRandomNumbers] cannot serve.  Asked for
    more values than the range holds, its loop never ends: whatever the
    draws, and however many, it is still drawing.  Asked for one value,
    it finds the one-element array sorted and swaps cells 0 and 1, which
    leaves [undefined] in the array. *)
Theorem generateRandomNumbers_unserved_counts (min max : Z) :
  (min ≤ max)%Z →
  (∀ count draws,
     (max - min + 1 < Z.of_nat count)%Z →
     generateRandomNumbers (Some count) min max draws = NoMoreDraws) ∧
  (∀ d draws,
     generateRandomNumbers (Some 1) min max (d :: draws) = UndefinedCell).
Proof.
  intros Hrange. split.
  - intros count draws Hcount. unfold generateRandomNumbers.
    destruct count as [|c]; [lia|].
    destruct (fill_numbers (Datatypes.S c) min max [] draws)
      as [a1 draws1| |] eqn:Hfill; [|done|].
    + apply (fill_numbers_range _ _ _ _ _ _ _ Hrange) in Hfill
        as (Hnd1 & Hlen1 & Hall1); [|apply NoDup_nil_2 | simpl; lia | done].
      pose proof (distinct_in_range min max a1 Hnd1 Hall1). lia.
    + by apply fill_numbers_defined in Hfill.
  - intros d draws. unfold generateRandomNumbers.
    rewrite fill_numbers_draw by (simpl; lia).
    rewrite fill_numbers_full by (unfold set_add; simpl; lia).
    reflexivity.
Qed.

Lemma generateRandomNumbers_unserved_counts_witness :
  (∀ count draws,
     (20 - 1 + 1 < Z.of_nat count)%Z →
     generateRandomNumbers (Some count) 1 20 draws = NoMoreDraws) ∧
  (∀ d draws,
     generateRandomNumbers (Some 1) 1 20 (d :: draws) = UndefinedCell).
Proof. apply (generateRandomNumbers_unserved_counts 1 20). lia. Defined.
End RandomCount.

(** ** Restarting a session *)

Section Restart.
Implicit Types (g : Engine) (now : Z) (draws rest : list nat).

#[local] Arguments generateStepsForAlgorithm : simpl never.
#[local] Arguments generateRandomNumbers : simpl never.

(** The key of a session that has left the idle state. *)
Lemma session_key g :
  session_inv g → state g ≠ IDLE →
  ∃ k, k ∈ ALGORITHMS_keys ∧ currentKey g = Some k.
Proof.
  intros Hinv Hst. pose proof (sinv_state g Hinv) as Hstate.
  assert (plan_of_session g) as Hplan
    by (destruct (state g); [done | apply Hstate.. | done]).
  apply generateStepsForAlgorithm_returned in Hplan as (Hkey & _).
  apply list_elem_of_fmap in Hkey as (k & Hk & Hin). eauto.
Qed.

Lemma startNewGame_supported_no_throw (k : string) now draws g e g' :
  k ∈ ALGORITHMS_keys →
  startNewGame (Some k) now draws g ≠ Throw e g'.
Proof.
  intros Hin. destruct (recognized_supported k Hin) as (d & _ & Hkd & Hrec).
  rewrite (startNewGame_recognized _ _ now draws g Hrec).
  destruct (generateRandomNumbers None 1 20 draws) as [arr rest| |];
    [|done|done].
  simpl. rewrite Hkd.
  by destruct (generateStepsForAlgorithm_supported arr k Hin) as [plan ->].
Qed.

(** X16: a session that has left the idle state has one of the three
    keys as the key of its algorithm.  Starting again with that key, by
    [startNewGame] or by [changeAlgorithm], which then do the same, never
    throws, and once it is given enough draws returns a game; the game it
    returns is on the same algorithm. *)
Theorem restart_keeps_algorithm (g : Engine) (now : Z) (draws : list nat) :
  reachable g → state g ≠ IDLE →
  ∃ k, k ∈ ALGORITHMS_keys ∧ currentKey g = Some k ∧
    changeAlgorithm (currentKey g) now draws g
      = startNewGame (currentKey g) now draws g ∧
    (∀ e g', startNewGame (currentKey g) now draws g ≠ Throw e g') ∧
    (∀ info g', startNewGame (currentKey g) now draws g = Return info g' →
                currentKey g' = Some k) ∧
    (∃ info g',
       startNewGame (currentKey g) now (draws ++ 0 :: completing_draws) g
       = Return info g').
Proof.
  intros Hreach Hst. apply reachable_session_inv in Hreach.
  destruct (session_key g Hreach Hst) as (k & Hin & Hkey).
  exists k. rewrite Hkey. split; [done|]. split; [done|].
  destruct (recognized_supported k Hin) as (d & Hak & _ & _).
  split; [unfold changeAlgorithm; simpl; by rewrite Hak|].
  split; [intros e g'; by apply startNewGame_supported_no_throw|].
  split.
  - intros info g' Hstart.
    destruct (startNewGame_algorithm _ _ _ _ _ _ Hstart)
      as (k0 & _ & _ & Hk0 & Hsame).
    by rewrite (Hsame k eq_refl Hin).
  - pose proof (startNewGame_completes (Some k) now draws g) as [g' Hg'].
    pose proof (startNewGame_supported_no_throw k now
                  (draws ++ 0 :: completing_draws) g) as Hno.
    destruct (startNewGame (Some k) now (draws ++ 0 :: completing_draws) g)
      as [info g1|e g1| |]; [eauto | | done | done].
    by destruct (Hno e g1 Hin).
Qed.

Lemma restart_keeps_algorithm_witness :
  ∃ k, k ∈ ALGORITHMS_keys ∧ currentKey sample_played = Some k ∧
    changeAlgorithm (currentKey sample_played) 2000 sample_draws sample_played
      = startNewGame (currentKey sample_played) 2000 sample_draws sample_played ∧
    (∀ e g', startNewGame (currentKey sample_played) 2000 sample_draws
               sample_played ≠ Throw e g') ∧
    (∀ info g', startNewGame (currentKey sample_played) 2000 sample_draws
                  sample_played = Return info g' →
                currentKey g' = Some k) ∧
    (∃ info g',
       startNewGame (currentKey sample_played) 2000
         (sample_draws ++ 0 :: completing_draws) sample_played
       = Return info g').
Proof.
  apply (restart_keeps_algorithm sample_played 2000 sample_draws
           sample_played_reachable).
  vm_compute. discriminate.
Defined.

(** X17: [selectRandomAlgorithm()] uses one draw and yields the
    descriptor that [ALGORITHMS] holds under one of its three keys, never
    [undefined]; each of the three is yielded for some draw. *)
Theorem selectRandomAlgorithm_covers :
  (∀ draws alg rest,
     selectRandomAlgorithm draws = Got alg rest →
     ∃ k d d0, k ∈ ALGORITHMS_keys ∧ alg = Descriptor d ∧
               ALGORITHMS k = Descriptor d ∧ key d = k ∧
               draws = d0 :: rest) ∧
  (∀ d0 draws, ∃ alg, selectRandomAlgorithm (d0 :: draws) = Got alg draws) ∧
  (∀ k, k ∈ ALGORITHMS_keys →
     ∃ d0, ∀ draws,
       selectRandomAlgorithm (d0 :: draws) = Got (ALGORITHMS k) draws).
Proof.
  split; [|split].
  - intros draws alg rest Hsel.
    destruct draws as [|d0 draws]; [done|].
    pose proof (selectRandomAlgorithm_draw d0 draws) as [alg' Hd].
    rewrite Hd in Hsel. injection Hsel as -> ->.
    apply selectRandomAlgorithm_spec in Hd as [-> | [-> | ->]];
      [exists "bubble", bubble | exists "selection", selection
       | exists "insertion", insertion];
      exists d0; (split; [apply list_elem_of_In; simpl; tauto | done]).
  - apply selectRandomAlgorithm_draw.
  - intros k Hk. apply list_elem_of_In in Hk. simpl in Hk.
    destruct Hk as [<- | [<- | [<- | []]]];
      [exists 0 | exists 1 | exists 2]; done.
Qed.
End Restart.
